(** * Incoming-call webhook router: a shallow embedding of
      [backend/routes/incomingCalls.js] and the properties of its
      normalisation, history, fan-out and query code, with the rows that
      [frontend/src/pages/AdminCallLog.jsx] builds from its answers. *)

From Stdlib Require Import ZArith NArith Ascii String DecimalString DecimalZ.
From Stdlib Require Import DecimalPos Sorted.
From stdpp Require Import gmap list.

Set Warnings "-register-all,-level-tolerance,-clear-no-such-hyp".
Local Open Scope Z_scope.

(** ** JavaScript strings and values *)

Module JS.

(** A JavaScript string is a sequence of UTF-16 code units. *)
Abbreviation jsstring := (list N).

(** String literals of the source, which are all ASCII. *)
Definition lit (s : string) : jsstring :=
  map N_of_ascii (list_ascii_of_string s).

(** The decimal numeral of an integer, with a ['-'] in front of a negative
    one. *)
Definition decimal (z : Z) : jsstring :=
  lit (NilZero.string_of_int (Z.to_int z)).

(** A JavaScript number: [NaN], zero (the router cannot tell [+0] from
    [-0]: both are falsy and both print as ["0"]), an infinity, or a finite
    number other than zero.  A finite number is given the way
    [Number::toString] takes it apart: its sign, and the integers [s] and
    [n] such that the number is [s * 10^(n-k)], where [k], the number of
    decimal digits of [s], is as small as possible.  So the double that
    [JSON.parse] makes of [12345678901234567890] is
    [Finite false 12345678901234567 20], [1e21] is [Finite false 1 22],
    [0.5] is [Finite false 5 0] and [7] is [Finite false 7 1]. *)
Inductive number :=
| NaN
| Zero
| Infinity (negative : bool)
| Finite (negative : bool) (s : positive) (n : Z).

(** [Number::toString] for the radix 10: the digits of [s] followed by
    zeros when the number is an integer below [10^21], a decimal point
    inside the digits, or in front of them for a number from [10^-6] on,
    and the exponent form elsewhere. *)
Definition number_to_string (x : number) : jsstring :=
  match x with
  | NaN => lit "NaN"
  | Zero => lit "0"
  | Infinity negative =>
      (if negative then lit "-" else []) ++ lit "Infinity"
  | Finite negative s n =>
      let ds := decimal (Zpos s) in
      let k := Z.of_nat (length ds) in
      (if negative then lit "-" else [])
      ++ (if (k <=? n) && (n <=? 21) then
            ds ++ replicate (Z.to_nat (n - k)) 48%N
          else if (0 <? n) && (n <=? 21) then
            take (Z.to_nat n) ds ++ lit "." ++ drop (Z.to_nat n) ds
          else if (-6 <? n) && (n <=? 0) then
            lit "0." ++ replicate (Z.to_nat (- n)) 48%N ++ ds
          else
            let e := n - 1 in
            let exponent :=
              lit "e" ++ (if e <? 0 then lit "-" else lit "+")
              ++ decimal (Z.abs e) in
            match ds with
            | [d] => [d] ++ exponent
            | d :: rest => [d] ++ lit "." ++ rest ++ exponent
            | [] => exponent
            end)
  end.

(** The values a parsed request can carry: what [JSON.parse] and the query
    parser build. *)
Inductive value :=
| VUndefined
| VNull
| VBool (b : bool)
| VNum (x : number)
| VStr (s : jsstring)
| VArr (l : list value)
| VObj (fields : list (jsstring * value)).

(** [ToBoolean]: what [!x], [x || y] and [if (x)] test. *)
Definition truthy (v : value) : bool :=
  match v with
  | VUndefined | VNull => false
  | VBool b => b
  | VNum x => match x with NaN | Zero => false | _ => true end
  | VStr s => match s with [] => false | _ => true end
  | VArr _ | VObj _ => true
  end.

(** [x == null] : true of [null] and [undefined] only. *)
Definition nullish (v : value) : bool :=
  match v with VUndefined | VNull => true | _ => false end.

(** [a || b] *)
Definition js_or (a b : value) : value := if truthy a then a else b.

(** [a ?? b] *)
Definition js_coalesce (a b : value) : value := if nullish a then b else a.

(** A nullable string ([null] is [None]) seen as a value. *)
Definition of_nullable (o : option jsstring) : value :=
  match o with Some s => VStr s | None => VNull end.

(** [s || null] for a string [s]. *)
Definition str_or_null (s : jsstring) : option jsstring :=
  match s with [] => None | _ => Some s end.

Fixpoint join (sep : jsstring) (l : list jsstring) : jsstring :=
  match l with
  | [] => []
  | [s] => s
  | s :: rest => s ++ sep ++ join sep rest
  end.

(** [String(v)]; [None] when the conversion throws a [TypeError].  A
    number prints through [Number::toString].  An array is joined with
    commas, [null] and [undefined] elements printing as nothing.  An
    object of a parsed request has data properties only: with
    no own [toString] it prints through [Object.prototype.toString]; with an
    own [toString], which is not callable, the conversion goes on to
    [valueOf], gets no primitive and throws. *)
Fixpoint String (v : value) : option jsstring :=
  match v with
  | VUndefined => Some (lit "undefined")
  | VNull => Some (lit "null")
  | VBool true => Some (lit "true")
  | VBool false => Some (lit "false")
  | VNum x => Some (number_to_string x)
  | VStr s => Some s
  | VArr l =>
      join (lit ",") <$>
        (fix elements (l : list value) : option (list jsstring) :=
           match l with
           | [] => Some []
           | e :: rest =>
               s ← (if nullish e then Some [] else String e);
               ss ← elements rest;
               Some (s :: ss)
           end) l
  | VObj fields =>
      if bool_decide (lit "toString" ∈ map fst fields) then None
      else Some (lit "[object Object]")
  end.

(** Truthiness of a string. *)
Definition nonempty (s : jsstring) : bool :=
  match s with [] => false | _ => true end.

(** White space and line terminators, as [trim] and [parseInt] strip them. *)
Definition is_ws (c : N) : bool :=
  ((9 <=? c) && (c <=? 13) || (c =? 32) || (c =? 160) || (c =? 5760)
   || (8192 <=? c) && (c <=? 8202) || (c =? 8232) || (c =? 8233)
   || (c =? 8239) || (c =? 8287) || (c =? 12288) || (c =? 65279))%N.

(** [\d] without the unicode flag: the ten ASCII digits. *)
Definition is_digit (c : N) : bool := ((48 <=? c) && (c <=? 57))%N.

Fixpoint drop_while (p : N -> bool) (s : jsstring) : jsstring :=
  match s with
  | [] => []
  | c :: rest => if p c then drop_while p rest else s
  end.

Definition trimStart (s : jsstring) : jsstring := drop_while is_ws s.

Definition trim (s : jsstring) : jsstring :=
  reverse (drop_while is_ws (reverse (trimStart s))).

(** Lower case of one code unit.  The ASCII capitals, and the two units
    outside ASCII whose lower case holds an ASCII letter (KELVIN SIGN, and
    LATIN CAPITAL I WITH DOT ABOVE); the lower case of any other unit holds
    no ASCII unit, and the router compares lower-cased text with ASCII
    labels only, so such a unit is kept. *)
Definition lower_unit (c : N) : jsstring :=
  (if (65 <=? c) && (c <=? 90) then [c + 32]
   else if c =? 8490 then [107]
   else if c =? 304 then [105; 775]
   else [c])%N.

Definition toLowerCase (s : jsstring) : jsstring := flat_map lower_unit s.

(** [s.replace(/\D/g, '')] *)
Definition strip_non_digits (s : jsstring) : jsstring :=
  filter (fun c => is_digit c = true) s.

(** [s.startsWith('+')] *)
Definition startsWithPlus (s : jsstring) : bool :=
  match s with c :: _ => (c =? 43)%N | [] => false end.

(** [s.slice(0, n)] for [0 <= n]. *)
Definition slice0 {A} (n : nat) (l : list A) : list A := take n l.

(** Value of a run of decimal digits. *)
Definition digits_value (s : jsstring) : Z :=
  fold_left (fun acc c => 10 * acc + (Z.of_N c - 48)) s 0.

Fixpoint take_while (p : N -> bool) (s : jsstring) : jsstring :=
  match s with
  | [] => []
  | c :: rest => if p c then c :: take_while p rest else []
  end.

(** [Number.parseInt(s, 10)] on a string; [None] is [NaN].  The result is
    the value of the numeral; [parseInt] returns the number nearest to it,
    which is the same integer up to 2^53 and, beyond, is like it neither
    zero nor below 500, which is all the router asks of it. *)
Definition parseInt10 (s : jsstring) : option Z :=
  let s := trimStart s in
  let '(neg, body) :=
    match s with
    | c :: rest =>
        if (c =? 45)%N then (true, rest)
        else if (c =? 43)%N then (false, rest)
        else (false, s)
    | [] => (false, s)
    end in
  match take_while is_digit body with
  | [] => None
  | ds => Some (if neg : bool then - digits_value ds else digits_value ds)
  end.

End JS.
Import JS.

(** ** Status and phone normalisation *)

Definition STATUS_LABELS : list jsstring :=
  [lit "ringing"; lit "answered"; lit "missed"; lit "rejected"].

(** The three tests that follow the conversion in [normalizeStatus]. *)
Definition status_of_text (status : jsstring) : jsstring :=
  if bool_decide (status ∈ STATUS_LABELS) then status
  else if bool_decide (status = lit "no_answer")
          || bool_decide (status = lit "noanswer") then lit "missed"
  else lit "ringing".

(** [None] when [String(rawStatus)] throws. *)
Definition normalizeStatus (rawStatus : value) : option jsstring :=
  if negb (truthy rawStatus) then Some (lit "ringing")
  else
    s ← String rawStatus;
    Some (status_of_text (toLowerCase (trim s))).

Record phone_pair := { display : jsstring; digits : jsstring }.

(** The body of [sanitizePhone] after [String(rawValue).trim()]. *)
Definition sanitize_text (str : jsstring) : phone_pair :=
  match str with
  | [] => {| display := []; digits := [] |}
  | _ =>
      let digits0 := strip_non_digits str in
      let plus := startsWithPlus str in
      match digits0 with
      | [] => {| display := []; digits := [] |}
      | _ =>
          let digits1 :=
            if decide (20 < length digits0)%nat then slice0 20 digits0
            else digits0 in
          {| display := if plus then lit "+" ++ digits1 else digits1;
             digits := digits1 |}
      end
  end.

(** [None] when [String(rawValue)] throws. *)
Definition sanitizePhone (rawValue : value) : option phone_pair :=
  if nullish rawValue then Some {| display := []; digits := [] |}
  else
    s ← String rawValue;
    Some (sanitize_text (trim s)).

(** ** The process state *)

Module Entry.
(** A stored call: the [entry] object of the POST handler. *)
Record t := {
  id : jsstring;
  phone : jsstring;
  digits : jsstring;
  extension : option jsstring;
  source : option jsstring;
  received_at : jsstring;
  status : jsstring;
  note : option jsstring;
  callerName : option jsstring;   (* meta.callerName *)
  personId : value                (* meta.personId *)
}.
End Entry.
Abbreviation entry := Entry.t.

(** What is written on a stream response: the reconnect hint, the
    keep-alive comment, and a [call] event carrying the entry (its [id:]
    line and JSON data are functions of the entry). *)
Inductive frame :=
| FRetry
| FKeepAlive
| FCall (e : entry).

(** A [listener] object: its response handle and its interval timer. *)
Record listener := { res : nat; heartbeat : option nat }.

Global Instance listener_eq_dec : EqDecision listener.
Proof. solve_decision. Defined.

Inductive console_line :=
| WarnNoSecret
| ErrorLookup.

Definition MAX_HISTORY : nat := 500.

Record state := {
  listeners : list listener;        (* the Set, in insertion order *)
  lastCall : option entry;
  sequence : nat;
  secretWarningLogged : bool;
  callHistory : list entry;
  (* the environment the module acts on *)
  intervals : gset nat;             (* timers set and not yet cleared *)
  sessions : gmap nat listener;     (* listeners captured by handlers *)
  written : gmap nat (list frame);  (* frames written per response *)
  next_handle : nat;
  console : list console_line
}.

Definition initial : state :=
  {| listeners := []; lastCall := None; sequence := 0%nat;
     secretWarningLogged := false; callHistory := [];
     intervals := ∅; sessions := ∅; written := ∅; next_handle := 0%nat;
     console := [] |}.

Definition set_listeners (f : list listener -> list listener) (st : state) :=
  {| listeners := f (listeners st); lastCall := lastCall st;
     sequence := sequence st; secretWarningLogged := secretWarningLogged st;
     callHistory := callHistory st; intervals := intervals st;
     sessions := sessions st; written := written st;
     next_handle := next_handle st; console := console st |}.

Definition set_intervals (f : gset nat -> gset nat) (st : state) :=
  {| listeners := listeners st; lastCall := lastCall st;
     sequence := sequence st; secretWarningLogged := secretWarningLogged st;
     callHistory := callHistory st; intervals := f (intervals st);
     sessions := sessions st; written := written st;
     next_handle := next_handle st; console := console st |}.

Definition set_written (f : gmap nat (list frame) -> gmap nat (list frame))
    (st : state) :=
  {| listeners := listeners st; lastCall := lastCall st;
     sequence := sequence st; secretWarningLogged := secretWarningLogged st;
     callHistory := callHistory st; intervals := intervals st;
     sessions := sessions st; written := f (written st);
     next_handle := next_handle st; console := console st |}.

Definition set_callHistory (f : list entry -> list entry) (st : state) :=
  {| listeners := listeners st; lastCall := lastCall st;
     sequence := sequence st; secretWarningLogged := secretWarningLogged st;
     callHistory := f (callHistory st); intervals := intervals st;
     sessions := sessions st; written := written st;
     next_handle := next_handle st; console := console st |}.

Definition set_lastCall (c : option entry) (st : state) :=
  {| listeners := listeners st; lastCall := c;
     sequence := sequence st; secretWarningLogged := secretWarningLogged st;
     callHistory := callHistory st; intervals := intervals st;
     sessions := sessions st; written := written st;
     next_handle := next_handle st; console := console st |}.

Definition set_sequence (n : nat) (st : state) :=
  {| listeners := listeners st; lastCall := lastCall st;
     sequence := n; secretWarningLogged := secretWarningLogged st;
     callHistory := callHistory st; intervals := intervals st;
     sessions := sessions st; written := written st;
     next_handle := next_handle st; console := console st |}.

Definition log_console (c : console_line) (st : state) :=
  {| listeners := listeners st; lastCall := lastCall st;
     sequence := sequence st; secretWarningLogged := secretWarningLogged st;
     callHistory := callHistory st; intervals := intervals st;
     sessions := sessions st; written := written st;
     next_handle := next_handle st; console := console st ++ [c] |}.

Definition set_secretWarningLogged (b : bool) (st : state) :=
  {| listeners := listeners st; lastCall := lastCall st;
     sequence := sequence st; secretWarningLogged := b;
     callHistory := callHistory st; intervals := intervals st;
     sessions := sessions st; written := written st;
     next_handle := next_handle st; console := console st |}.

Definition set_sessions (f : gmap nat listener -> gmap nat listener)
    (st : state) :=
  {| listeners := listeners st; lastCall := lastCall st;
     sequence := sequence st; secretWarningLogged := secretWarningLogged st;
     callHistory := callHistory st; intervals := intervals st;
     sessions := f (sessions st); written := written st;
     next_handle := next_handle st; console := console st |}.

Definition set_next_handle (n : nat) (st : state) :=
  {| listeners := listeners st; lastCall := lastCall st;
     sequence := sequence st; secretWarningLogged := secretWarningLogged st;
     callHistory := callHistory st; intervals := intervals st;
     sessions := sessions st; written := written st;
     next_handle := n; console := console st |}.

(** ** Sets in insertion order ([new Set], [add], [delete], [Array.from]) *)

Definition set_add `{EqDecision A} (x : A) (s : list A) : list A :=
  if decide (x ∈ s) then s else s ++ [x].

Definition set_delete `{EqDecision A} (x : A) (s : list A) : list A :=
  filter (fun y => y <> x) s.

Definition set_of_list `{EqDecision A} (l : list A) : list A :=
  foldl (fun s x => set_add x s) [] l.

(** ** Writing, fan-out and clean-up *)

(** [res.write(f)] that returns: the frame is appended to what the
    response has received. *)
Definition res_write (r : nat) (f : frame) (st : state) : state :=
  set_written (fun w => <[r := default [] (w !! r) ++ [f]]> w) st.

Definition clearInterval (t : nat) (st : state) : state :=
  set_intervals (fun s => s ∖ {[t]}) st.

Definition cleanupListener (l : option listener) (st : state) : state :=
  match l with
  | None => st
  | Some l =>
      let st1 := match heartbeat l with
                 | Some t => clearInterval t st
                 | None => st
                 end in
      set_listeners (set_delete l) st1
  end.

(** [broadcast(event)]; [throws r] tells whether [write] on response [r]
    throws during this call.  [deliver] is the body of its loop, which runs
    over [Array.from(listeners)], the listeners at the start of the call. *)
Definition deliver (throws : nat -> bool) (event : entry) (st : state)
    (l : listener) : state :=
  if throws (res l) then cleanupListener (Some l) st
  else res_write (res l) (FCall event) st.

Definition fanout (throws : nat -> bool) (event : entry)
    (ls : list listener) (st : state) : state :=
  foldl (deliver throws event) st ls.

Definition broadcast (throws : nat -> bool) (event : entry) (st : state)
    : state :=
  fanout throws event (listeners st) st.

Definition storeInHistory (e : entry) (st : state) : state :=
  let st1 := set_callHistory (fun h => e :: h) st in
  if decide (MAX_HISTORY < length (callHistory st1))%nat
  then set_callHistory (fun h => removelast h) st1
  else st1.

(** ** Requests *)

(** The fields of [req.body] the router reads; a field that is not in the
    body is [VUndefined]. *)
Record body := {
  b_phone : value;
  b_caller : value;
  b_number : value;
  b_extension : value;
  b_source : value;
  b_status : value;
  b_note : value;
  b_name : value;
  b_person_id : value;
  b_secret : value
}.

Record request := {
  header_secret : option jsstring;   (* req.get('x-pbx-secret') *)
  req_body : option body;            (* req.body, when a parser set it *)
  query_secret : value               (* req.query?.secret *)
}.

(** [req.body?.f] *)
Definition body_field (f : body -> value) (r : request) : value :=
  match req_body r with Some b => f b | None => VUndefined end.

(** One element of the [entries] array of the history read. *)
Record log_entry := {
  le_id : jsstring;
  le_phone : jsstring;
  le_digits : jsstring;
  le_received_at : jsstring;
  le_extension : option jsstring;
  le_source : option jsstring;
  le_status : jsstring;
  le_note : option jsstring;
  caller_name : value;
  person_id : value
}.

(** JSON bodies the router sends. *)
Inductive reply :=
| BError (msg : jsstring)
| BSuccess
| BCall (call : option entry)
| BEntries (entries : list log_entry).

(** What a handler does with its response: a JSON reply with a status, a
    stream left open, or an exception that escapes the handler. *)
Inductive response :=
| Json (code : Z) (r : reply)
| Stream
| Thrown.

(** [x === s] for a string [s]. *)
Definition strict_eq_string (v : value) (s : jsstring) : bool :=
  match v with VStr s' => bool_decide (s' = s) | _ => false end.

Definition providedSecret (r : request) : value :=
  js_or (js_or (match header_secret r with
                | Some s => VStr s
                | None => VUndefined
                end)
               (body_field b_secret r))
        (query_secret r).

(** The secret gate of the POST handler: [true] when the request is
    answered 401. *)
Definition secret_rejected (expectedSecret : option jsstring) (r : request)
    : bool :=
  match expectedSecret with
  | Some (c :: s) =>
      negb (truthy (providedSecret r))
      || negb (strict_eq_string (providedSecret r) (c :: s))
  | _ => false
  end.

(** The value handed to [sanitizePhone]. *)
Definition phone_field (r : request) : value :=
  js_coalesce (body_field b_phone r)
    (js_coalesce (body_field b_caller r)
       (js_coalesce (body_field b_number r) (VStr []))).

(** [v != null ? String(v).trim() : null]; the outer [None] is a throw. *)
Definition trimmed_or_null (v : value) : option (option jsstring) :=
  if nullish v then Some None else s ← String v; Some (Some (trim s)).

(** [o || null] for a nullable string. *)
Definition nullable_or_null (o : option jsstring) : option jsstring :=
  match o with Some s => str_or_null s | None => None end.

(** The [entry] object, from the values computed before it.  [note] and
    [name] are read only when [typeof] says they are strings.  The id is
    the string form of the counter, a positive integer that one increment
    per request keeps below 2^53: its decimal numeral. *)
Definition make_entry (seq : nat) (p : phone_pair)
    (extension source : option jsstring) (status : jsstring) (r : request)
    (now : jsstring) : entry :=
  let note := match body_field b_note r with
              | VStr s => Some (trim s)
              | _ => None
              end in
  {| Entry.id := decimal (Z.of_nat seq);
     Entry.phone := match display p with [] => digits p | d => d end;
     Entry.digits := digits p;
     Entry.extension := nullable_or_null extension;
     Entry.source := nullable_or_null source;
     Entry.received_at := now;
     Entry.status := status;
     Entry.note := nullable_or_null note;
     Entry.callerName := match body_field b_name r with
                         | VStr s => str_or_null (trim s)
                         | _ => None
                         end;
     Entry.personId := js_coalesce (body_field b_person_id r) VNull |}.

(** The [else if (!secretWarningLogged)] branch of the secret gate. *)
Definition warn_unless_secret (expectedSecret : option jsstring)
    (st : state) : state :=
  match expectedSecret with
  | Some (_ :: _) => st
  | _ =>
      if secretWarningLogged st then st
      else set_secretWarningLogged true (log_console WarnNoSecret st)
  end.

(** [router.post('/')].  [expectedSecret] is [process.env.PBX_WEBHOOK_SECRET],
    [now] is [new Date().toISOString()], [throws] the behaviour of the
    stream writes made by [broadcast].  The statements run in the order of
    the source: the phone, [extension] and [source] are converted before
    [++sequence], the status after it. *)
Definition handle_post (expectedSecret : option jsstring) (r : request)
    (now : jsstring) (throws : nat -> bool) (st : state)
    : state * response :=
  if secret_rejected expectedSecret r
  then (st, Json 401 (BError (lit "invalid secret")))
  else
    let st0 := warn_unless_secret expectedSecret st in
    match sanitizePhone (phone_field r) with
    | None => (st0, Thrown)
    | Some p =>
        if negb (nonempty (display p)) && negb (nonempty (digits p))
        then (st0, Json 400 (BError (lit "phone missing")))
        else
          match trimmed_or_null (body_field b_extension r) with
          | None => (st0, Thrown)
          | Some extension =>
              match trimmed_or_null (body_field b_source r) with
              | None => (st0, Thrown)
              | Some source =>
                  let st1 := set_sequence (S (sequence st0)) st0 in
                  match normalizeStatus (body_field b_status r) with
                  | None => (st1, Thrown)
                  | Some status =>
                      let e := make_entry (sequence st1) p extension source
                                 status r now in
                      let st2 := storeInHistory e st1 in
                      let st3 := set_lastCall (Some e) st2 in
                      let st4 := broadcast throws e st3 in
                      (st4, Json 200 BSuccess)
                  end
              end
          end
    end.

(** [router.get('/stream')].  The response and the timer of the request
    get the fresh handle; [throws_retry] and [throws_last] tell whether
    the two writes of the handler throw. *)
Definition handle_stream (user : bool) (throws_retry throws_last : bool)
    (st : state) : state * response :=
  if negb user then (st, Json 401 (BError (lit "auth required")))
  else
    let h := next_handle st in
    let st0 := set_next_handle (S h) st in
    if throws_retry then (st0, Thrown)
    else
      let st1 := res_write h FRetry st0 in
      let l := {| res := h; heartbeat := Some h |} in
      let st2 := set_sessions (fun m => <[h := l]> m)
                   (set_intervals (fun s => s ∪ {[h]}) st1) in
      let st3 := set_listeners (set_add l) st2 in
      match lastCall st3 with
      | Some e =>
          if throws_last then (st3, Thrown)
          else (res_write h (FCall e) st3, Stream)
      | None => (st3, Stream)
      end.

(** The interval callback of the stream whose handle is [h]; a cleared
    interval does not call back. *)
Definition heartbeat_tick (h : nat) (throws : bool) (st : state) : state :=
  if decide (h ∈ intervals st) then
    match sessions st !! h with
    | Some l =>
        if throws then cleanupListener (Some l) st
        else res_write (res l) FKeepAlive st
    | None => st
    end
  else st.

(** The ['close'], ['end'] and ['finish'] handlers of the stream whose
    handle is [h]. *)
Definition on_close (h : nat) (st : state) : state :=
  match sessions st !! h with
  | Some l => cleanupListener (Some l) st
  | None => st
  end.

(** [router.get('/last')] *)
Definition handle_last (user : bool) (st : state) : state * response :=
  if negb user then (st, Json 401 (BError (lit "auth required")))
  else (st, Json 200 (BCall (lastCall st))).

(** ** The history read *)

(** A row of the [people] table as the driver returns it. *)
Record row := { row_id : value; row_name : value; row_phone : value }.

(** [db.query]: it rejects, or resolves with rows. *)
Inductive db_result :=
| DbRejects
| DbRows (rows : list (option row)).

Record person := { p_id : value; p_name : value }.

(** [Math.max(1, Math.min(Number.parseInt(s, 10) || 100, MAX_HISTORY))] for
    the string [s] that [parseInt] made of the parameter. *)
Definition limit_of_text (s : jsstring) : Z :=
  let requested := match parseInt10 s with
                   | None => 100
                   | Some n => if n =? 0 then 100 else n
                   end in
  Z.max 1 (Z.min requested (Z.of_nat MAX_HISTORY)).

(** The limit of a read; [None] when [parseInt] throws on converting the
    parameter. *)
Definition log_limit (limit : value) : option Z :=
  s ← String limit; Some (limit_of_text s).

(** One turn of the loop over the rows that fills [peopleByPhone]; [None]
    when [String(row.phone)] throws.  A key that is already an own property
    is skipped. *)
Definition add_row (m : gmap jsstring person) (r : option row)
    : option (gmap jsstring person) :=
  match r with
  | None => Some m
  | Some r =>
      if truthy (row_phone r) then
        s ← String (row_phone r);
        let key := trim s in
        Some (match key with
              | [] => m
              | _ =>
                  match m !! key with
                  | Some _ => m
                  | None =>
                      <[key := {| p_id := row_id r; p_name := row_name r |}]> m
                  end
              end)
      else Some m
  end.

(** The loop: the map it leaves, and whether it threw on the way. *)
Fixpoint add_rows (m : gmap jsstring person) (rows : list (option row))
    : gmap jsstring person * bool :=
  match rows with
  | [] => (m, false)
  | r :: rest =>
      match add_row m r with
      | Some m' => add_rows m' rest
      | None => (m, true)
      end
  end.

(** The distinct non-empty [digits] of a slice, in order of appearance. *)
Definition slice_digits (slice : list entry) : list jsstring :=
  set_of_list (filter (fun s => nonempty s = true) (map Entry.digits slice)).

(** [peopleByPhone] after the [try]/[catch], and whether the [catch] ran. *)
Definition load_people (db : list jsstring -> db_result)
    (digits : list jsstring) : gmap jsstring person * bool :=
  match digits with
  | [] => (∅, false)
  | _ =>
      match db digits with
      | DbRejects => (∅, true)
      | DbRows rows => add_rows ∅ rows
      end
  end.

(** [entry.digits ? peopleByPhone[entry.digits] : null].  The digits of a
    stored entry are decimal digits, and no inherited property of an object
    has such a name, so the property read is the lookup in the map. *)
Definition lookup_person (peopleByPhone : gmap jsstring person) (e : entry)
    : option person :=
  if nonempty (Entry.digits e) then peopleByPhone !! Entry.digits e else None.

Definition enrich (peopleByPhone : gmap jsstring person) (e : entry)
    : log_entry :=
  let person := lookup_person peopleByPhone e in
  let person_name := match person with
                     | Some p => p_name p
                     | None => VUndefined
                     end in
  let person_ident := match person with
                      | Some p => p_id p
                      | None => VUndefined
                      end in
  {| le_id := Entry.id e;
     le_phone := Entry.phone e;
     le_digits := Entry.digits e;
     le_received_at := Entry.received_at e;
     le_extension := Entry.extension e;
     le_source := Entry.source e;
     le_status := Entry.status e;
     le_note := Entry.note e;
     caller_name :=
       js_or (js_or (of_nullable (Entry.callerName e)) person_name) VNull;
     person_id := js_or (js_or (Entry.personId e) person_ident) VNull |}.

(** [router.get('/log')] *)
Definition handle_log (user : bool) (limit : value)
    (db : list jsstring -> db_result) (st : state) : state * response :=
  if negb user then (st, Json 401 (BError (lit "auth required")))
  else
    match log_limit limit with
    | None => (st, Thrown)
    | Some limit =>
        let slice := slice0 (Z.to_nat limit) (callHistory st) in
        let digits := slice_digits slice in
        let '(peopleByPhone, failed) := load_people db digits in
        let st' := if failed : bool then log_console ErrorLookup st else st in
        (st', Json 200 (BEntries (map (enrich peopleByPhone) slice)))
    end.

(** ** The process as a transition system *)

Inductive event :=
| EPost (expectedSecret : option jsstring) (r : request) (now : jsstring)
        (throws : nat -> bool)
| EStream (user : bool) (throws_retry throws_last : bool)
| ELast (user : bool)
| ELog (user : bool) (limit : value) (db : list jsstring -> db_result)
| EClose (h : nat)
| ETick (h : nat) (throws : bool).

Definition step (ev : event) (st : state) : state * option response :=
  match ev with
  | EPost secret r now throws =>
      let '(st', resp) := handle_post secret r now throws st in
      (st', Some resp)
  | EStream user t1 t2 =>
      let '(st', resp) := handle_stream user t1 t2 st in (st', Some resp)
  | ELast user =>
      let '(st', resp) := handle_last user st in (st', Some resp)
  | ELog user limit db =>
      let '(st', resp) := handle_log user limit db st in (st', Some resp)
  | EClose h => (on_close h st, None)
  | ETick h throws => (heartbeat_tick h throws st, None)
  end.

(** The state after a sequence of events. *)
Definition run (evs : list event) (st : state) : state :=
  foldl (fun st ev => fst (step ev st)) st evs.

Definition reachable (st : state) : Prop :=
  exists evs, st = run evs initial.

(** The entries stored by the accepted ingestions of a run, oldest first:
    after a POST answered 200, [lastCall] is the entry it built. *)
Fixpoint ingested (evs : list event) (st : state) : list entry :=
  match evs with
  | [] => []
  | ev :: rest =>
      let '(st', resp) := step ev st in
      match ev, resp, lastCall st' with
      | EPost _ _ _ _, Some (Json 200 _), Some e => e :: ingested rest st'
      | _, _, _ => ingested rest st'
      end
  end.

(** ** Vocabulary of the statements, and sample inputs *)

(** The test [!display && !digits] of the POST handler. *)
Definition phone_missing (r : request) : bool :=
  match sanitizePhone (phone_field r) with
  | Some p => negb (nonempty (display p)) && negb (nonempty (digits p))
  | None => false
  end.

(** What the POST handler does with a request, by the tests and
    conversions it meets on its way. *)
Inductive post_plan :=
| Plan401
| PlanThrowBefore    (* a conversion throws before [++sequence] *)
| Plan400
| PlanThrowAfter     (* the status conversion throws, after [++sequence] *)
| PlanStore (p : phone_pair) (extension source : option jsstring)
            (status : jsstring).

Definition plan_of (secret : option jsstring) (r : request) : post_plan :=
  if secret_rejected secret r then Plan401
  else
    match sanitizePhone (phone_field r) with
    | None => PlanThrowBefore
    | Some p =>
        if negb (nonempty (display p)) && negb (nonempty (digits p))
        then Plan400
        else
          match trimmed_or_null (body_field b_extension r),
                trimmed_or_null (body_field b_source r) with
          | Some extension, Some source =>
              match normalizeStatus (body_field b_status r) with
              | Some status => PlanStore p extension source status
              | None => PlanThrowAfter
              end
          | _, _ => PlanThrowBefore
          end
    end.

(** The reply that goes with a plan. *)
Definition plan_response (p : post_plan) : response :=
  match p with
  | Plan401 => Json 401 (BError (lit "invalid secret"))
  | Plan400 => Json 400 (BError (lit "phone missing"))
  | PlanThrowBefore | PlanThrowAfter => Thrown
  | PlanStore _ _ _ _ => Json 200 BSuccess
  end.

(** The part of the state that ingestion owns. *)
Definition core (st : state) : list entry * option entry * nat :=
  (callHistory st, lastCall st, sequence st).

(** The entry an event stores, when it is an ingestion that passes the
    secret gate and carries a phone. *)
Definition accepted (ev : event) (st : state) : option entry :=
  match ev with
  | EPost secret r now _ =>
      match plan_of secret r with
      | PlanStore p extension source status =>
          Some (make_entry (S (sequence st)) p extension source status r now)
      | _ => None
      end
  | _ => None
  end.

(** An ingestion that throws after it took an id. *)
Definition throws_late (ev : event) : bool :=
  match ev with
  | EPost secret r _ _ =>
      match plan_of secret r with PlanThrowAfter => true | _ => false end
  | _ => false
  end.

(** The ring after a sequence of insertions, oldest insertion first. *)
Definition store_all (es : list entry) (st : state) : state :=
  foldl (fun st e => storeInHistory e st) st es.

(** The ring holds at most [MAX_HISTORY] entries and [lastCall] is its
    newest one. *)
Definition ring_inv (st : state) : Prop :=
  (length (callHistory st) <= MAX_HISTORY)%nat
  /\ lastCall st = head (callHistory st).

(** The id the [n]-th accepted ingestion gets. *)
Definition id_of (n : nat) : jsstring := decimal (Z.of_nat n).

(** A request that carries a phone and nothing else. *)
Definition sample_body (phone : value) : body :=
  {| b_phone := phone; b_caller := VUndefined; b_number := VUndefined;
     b_extension := VUndefined; b_source := VUndefined;
     b_status := VUndefined; b_note := VUndefined; b_name := VUndefined;
     b_person_id := VUndefined; b_secret := VUndefined |}.

Definition sample_request (phone : value) : request :=
  {| header_secret := None; req_body := Some (sample_body phone);
     query_secret := VUndefined |}.

Definition sample_post (phone : string) : event :=
  EPost None (sample_request (VStr (lit phone))) (lit "2024-01-01T00:00:00.000Z")
        (fun _ => false).

Definition sample_entry (n : nat) : entry :=
  make_entry n (sanitize_text (lit "0123")) None None (lit "ringing")
    (sample_request (VStr (lit "0123"))) (lit "2024-01-01T00:00:00.000Z").

(** Three requests: one accepted, one without a phone, one accepted. *)
Definition sample_run : list event :=
  [sample_post "0123"; sample_post ""; sample_post "+40 7"].

(** What every reachable state satisfies about streams: listeners have
    distinct responses, every listener is the one its handlers captured,
    and handles and timers in use were allocated. *)
Definition hub_inv (st : state) : Prop :=
  NoDup (map res (listeners st))
  /\ (forall l, l ∈ listeners st -> sessions st !! res l = Some l)
  /\ (forall h l, sessions st !! h = Some l ->
        l = {| res := h; heartbeat := Some h |} /\ (h < next_handle st)%nat)
  /\ (forall h, h ∈ intervals st -> (h < next_handle st)%nat).

(** The part of the state that streams own. *)
Definition hub (st : state)
    : list listener * gmap nat listener * nat * gset nat :=
  (listeners st, sessions st, next_handle st, intervals st).

(** Two streams opened on a fresh process. *)
Definition two_streams : state :=
  run [EStream true false false; EStream true false false] initial.

(** The request [r] with its [status] field replaced by [v]. *)
Definition with_status (v : value) (r : request) : request :=
  let b := default (sample_body VUndefined) (req_body r) in
  {| header_secret := header_secret r;
     req_body := Some
       {| b_phone := b_phone b; b_caller := b_caller b;
          b_number := b_number b; b_extension := b_extension b;
          b_source := b_source b; b_status := v; b_note := b_note b;
          b_name := b_name b; b_person_id := b_person_id b;
          b_secret := b_secret b |};
     query_secret := query_secret r |}.

(** A status that [JSON.parse] builds from [{"toString": null}]. *)
Definition unprintable : value := VObj [(lit "toString", VNull)].

(** A request with a phone whose status cannot be converted. *)
Definition crash_post : event :=
  EPost None (with_status unprintable (sample_request (VStr (lit "0123"))))
        (lit "2024-01-01T00:00:00.000Z") (fun _ => false).

(** The limit of a history read as the specification words it: the
    requested count, 100 when there is none, clamped to [1, 500]. *)
Definition clamp_limit (requested : option Z) : Z :=
  Z.max 1 (Z.min (default 100 requested) 500).

(** [person?.name] and [person?.id] *)
Definition person_name (p : option person) : value :=
  match p with Some p => p_name p | None => VUndefined end.

Definition person_ident (p : option person) : value :=
  match p with Some p => p_id p | None => VUndefined end.

(** The entry the third request of [sample_run] stores. *)
Definition sample_entry_plus (n : nat) : entry :=
  make_entry n (sanitize_text (lit "+40 7")) None None (lit "ringing")
    (sample_request (VStr (lit "+40 7"))) (lit "2024-01-01T00:00:00.000Z").

(** The shape of every stored entry: [digits] is one to twenty decimal
    digits, [phone] is [digits] with or without a ['+'] in front, the status
    is a label, and a caller name, when there is one, is not empty. *)
Definition entry_wf (e : entry) : Prop :=
  Entry.digits e <> []
  /\ Forall (fun c => is_digit c = true) (Entry.digits e)
  /\ (length (Entry.digits e) <= 20)%nat
  /\ (Entry.phone e = Entry.digits e
      \/ Entry.phone e = lit "+" ++ Entry.digits e)
  /\ Entry.status e ∈ STATUS_LABELS
  /\ Entry.callerName e <> Some [].

(** An accepted request with a status. *)
Definition status_post (status : string) : event :=
  EPost None (with_status (VStr (lit status)) (sample_request (VStr (lit "0123"))))
        (lit "2024-01-01T00:00:00.000Z") (fun _ => false).

Definition five_calls : list event :=
  map status_post ["ringing"; "answered"; "missed"; "rejected"; "ringing"]%string.

(** The ids of the entries of a reply to a history read. *)
Definition reply_ids (r : response) : list jsstring :=
  match r with
  | Json _ (BEntries entries) => map le_id entries
  | _ => []
  end.

(** ** Vocabulary of the further properties *)

(** The number a decimal numeral denotes, read digit by digit from [acc]. *)
Fixpoint uint_value (d : Decimal.uint) (acc : Z) : Z :=
  match d with
  | Decimal.Nil => acc
  | Decimal.D0 l => uint_value l (10 * acc)
  | Decimal.D1 l => uint_value l (10 * acc + 1)
  | Decimal.D2 l => uint_value l (10 * acc + 2)
  | Decimal.D3 l => uint_value l (10 * acc + 3)
  | Decimal.D4 l => uint_value l (10 * acc + 4)
  | Decimal.D5 l => uint_value l (10 * acc + 5)
  | Decimal.D6 l => uint_value l (10 * acc + 6)
  | Decimal.D7 l => uint_value l (10 * acc + 7)
  | Decimal.D8 l => uint_value l (10 * acc + 8)
  | Decimal.D9 l => uint_value l (10 * acc + 9)
  end.

(** A free-text field of an entry: [null], or a string that is not empty
    and has no white space at either end. *)
Definition free_text (o : option jsstring) : Prop :=
  match o with
  | None => True
  | Some s => s <> [] /\ trim s = s
  end.

(** A string that does not start with white space. *)
Definition no_ws_head (s : jsstring) : Prop :=
  match s with c :: _ => is_ws c = false | [] => True end.

(** The listener object the stream handler builds for the handle [h]. *)
Definition mk_listener (h : nat) : listener :=
  {| res := h; heartbeat := Some h |}.

(** What the response [h] has received. *)
Definition frames (st : state) (h : nat) : list frame :=
  default [] (written st !! h).

(** The calls among frames, in the order they were written. *)
Definition calls_of (fs : list frame) : list entry :=
  omap (fun f => match f with FCall e => Some e | _ => None end) fs.

(** The part of the state that streams own, with what they received. *)
Definition streams (st : state) :=
  (hub st, written st).

(** A timer runs exactly for the registered listeners, and only allocated
    responses have received anything. *)
Definition live_inv (st : state) : Prop :=
  (forall h, h ∈ intervals st <-> mk_listener h ∈ listeners st)
  /\ (forall h, is_Some (written st !! h) -> (h < next_handle st)%nat).

(** What the event [ev], arriving in the state [st], writes to the
    response [h]: an accepted ingestion writes the call to the registered
    listeners whose write does not throw, an authorized stream request
    writes the retry hint and the last call to its own fresh response, and a
    heartbeat writes the keep-alive to its own registered listener. *)
Definition added (ev : event) (st : state) (h : nat) : list frame :=
  match ev with
  | EPost _ _ _ throws =>
      match accepted ev st with
      | Some e =>
          if decide (mk_listener h ∈ listeners st)
          then (if throws h then [] else [FCall e])
          else []
      | None => []
      end
  | EStream true false throws_last =>
      if decide (h = next_handle st)
      then FRetry :: match lastCall st with
                     | Some e => if throws_last then [] else [FCall e]
                     | None => []
                     end
      else []
  | ETick k false =>
      if decide (k = h /\ mk_listener h ∈ listeners st) then [FKeepAlive]
      else []
  | _ => []
  end.

(** Whether the response [h] has a registered listener after the event
    [ev] that arrives in the state [st]. *)
Definition registered_after (ev : event) (st : state) (h : nat) : Prop :=
  match ev with
  | EPost _ _ _ throws =>
      mk_listener h ∈ listeners st
      /\ (is_Some (accepted ev st) -> throws h = false)
  | EStream true false _ =>
      mk_listener h ∈ listeners st \/ h = next_handle st
  | EClose k | ETick k true => mk_listener h ∈ listeners st /\ h <> k
  | _ => mk_listener h ∈ listeners st
  end.

(** The person a row of the directory stands for. *)
Definition row_person (r : row) : person :=
  {| p_id := row_id r; p_name := row_name r |}.

(** A directory whose answer is [rows] whatever it is asked. *)
Definition directory (rows : list (option row)) : list jsstring -> db_result :=
  fun _ => DbRows rows.

(** A row with the phone [phone] and the name [name]. *)
Definition sample_row (phone name : string) : option row :=
  Some {| row_id := VNum (Finite false 7 1); row_name := VStr (lit name);
          row_phone := VStr (lit phone) |}.

(** A row whose phone has no string form. *)
Definition unprintable_row : option row :=
  Some {| row_id := VNum (Finite false 9 1); row_name := VStr (lit "Z");
          row_phone := VObj [(lit "toString", VNull)] |}.

(** The warning about the missing secret among the lines of the console. *)
Definition is_warning (c : console_line) : bool :=
  match c with WarnNoSecret => true | ErrorLookup => false end.

(** An ingestion that arrives while no secret is configured. *)
Definition unsecured (ev : event) : bool :=
  match ev with
  | EPost None _ _ _ | EPost (Some []) _ _ _ => true
  | _ => false
  end.

(** ** The call-log page: [frontend/src/pages/AdminCallLog.jsx] *)

Module AdminCallLog.

Record status_meta := { label : jsstring; badge : jsstring }.

(** The letter a-breve of the Romanian labels, and the dash shown for a
    missing value. *)
Definition a_breve : jsstring := [259%N].
Definition dash : jsstring := [8212%N].

(** The own properties of [STATUS_META], in source order. *)
Definition STATUS_META : list (jsstring * status_meta) :=
  [ (lit "answered",
     {| label := lit "R" ++ a_breve ++ lit "spuns";
        badge := lit "bg-green-100 text-green-800 border border-green-200" |});
    (lit "missed",
     {| label := lit "Ne r" ++ a_breve ++ lit "spuns";
        badge := lit "bg-yellow-100 text-yellow-800 border border-yellow-200" |});
    (lit "rejected",
     {| label := lit "Respins";
        badge := lit "bg-red-100 text-red-800 border border-red-200" |});
    (lit "ringing",
     {| label := lit "Sun" ++ a_breve;
        badge := lit "bg-blue-100 text-blue-800 border border-blue-200" |}) ].

(** The badge of [StatusBadge] for a status that has none of its own. *)
Definition UNKNOWN_META : status_meta :=
  {| label := lit "Necunoscut";
     badge := lit "bg-gray-100 text-gray-700 border border-gray-200" |}.

(** [Object.prototype.hasOwnProperty] on an object literal. *)
Fixpoint own_property {A} (o : list (jsstring * A)) (k : jsstring) : option A :=
  match o with
  | [] => None
  | (k', v) :: rest => if decide (k' = k) then Some v else own_property rest k
  end.

(** The options of the limit [select], the limit the page starts with, and
    the one [onChange] falls back to. *)
Definition LIMIT_OPTIONS : list Z := [25; 50; 100; 200; 300; 500].
Definition initial_limit : Z := 100.

(** [Number(event.target.value) || 50] for the option [opt] of the
    [select], whose value is the decimal text of the number. *)
Definition select_limit (opt : Z) : Z :=
  if opt =? 0 then 50 else opt.

(** The [limit] parameter the router gets from [`...log?limit=${limit}`]. *)
Definition limit_query (limit : Z) : value := VStr (decimal limit).

(** One element of [payload.entries], as [response.json()] builds it: the
    properties the page reads. *)
Record payload_entry := {
  pe_id : value;
  pe_received_at : value;
  pe_phone : value;
  pe_digits : value;
  pe_caller_name : value;
  pe_status : value;
  pe_note : value
}.

Record call_row := {
  r_id : value;
  r_date : jsstring;
  r_time : jsstring;
  r_phone : value;
  r_name : value;
  r_status : value;
  r_note : value
}.

Section Page.
(** [dayjs(value).isValid()] and [dayjs(value).format(fmt)]. *)
Variable dayjs_isValid : value -> bool.
Variable dayjs_format : value -> jsstring -> jsstring.
(** The names of the properties that [Object.prototype] defines. *)
Variable inherited : jsstring -> bool.

Definition formatDate (v : value) (fmt : jsstring) : jsstring :=
  if negb (truthy v) then dash
  else if negb (dayjs_isValid v) then dash
  else dayjs_format v fmt.

(** [STATUS_META[status] ?? { label: 'Necunoscut', ... }] for a status
    that is a string; [None] when the property read finds a property of
    [Object.prototype], which is no badge. *)
Definition StatusBadge (status : jsstring) : option status_meta :=
  match own_property STATUS_META status with
  | Some meta => Some meta
  | None => if inherited status then None else Some UNKNOWN_META
  end.

(** The function mapped over [entries] to build [rows]. *)
Definition row_of (entry : payload_entry) : call_row :=
  {| r_id := pe_id entry;
     r_date := formatDate (pe_received_at entry) (lit "DD.MM.YYYY");
     r_time := formatDate (pe_received_at entry) (lit "HH:mm:ss");
     r_phone := js_or (js_or (pe_phone entry) (pe_digits entry)) (VStr dash);
     r_name := js_or (pe_caller_name entry)
                 (VStr (lit "F" ++ a_breve ++ lit "r" ++ a_breve
                        ++ lit " nume asociat"));
     r_status := js_or (pe_status entry) (VStr (lit "ringing"));
     r_note := js_or (pe_note entry) (VStr dash) |}.

End Page.

(** What the JSON transport keeps of an entry of the history read: a
    string arrives as the same string and [null] as [null]. *)
Definition transports (le : log_entry) (pe : payload_entry) : Prop :=
  pe_id pe = VStr (le_id le)
  /\ pe_received_at pe = VStr (le_received_at le)
  /\ pe_phone pe = VStr (le_phone le)
  /\ pe_digits pe = VStr (le_digits le)
  /\ pe_status pe = VStr (le_status le)
  /\ pe_note pe = of_nullable (le_note le)
  /\ (forall s, caller_name le = VStr s -> pe_caller_name pe = VStr s)
  /\ (caller_name le = VNull -> pe_caller_name pe = VNull).

(** The payload entry of an entry whose caller name is a string or
    [null]. *)
Definition payload_of (le : log_entry) : payload_entry :=
  {| pe_id := VStr (le_id le);
     pe_received_at := VStr (le_received_at le);
     pe_phone := VStr (le_phone le);
     pe_digits := VStr (le_digits le);
     pe_caller_name := caller_name le;
     pe_status := VStr (le_status le);
     pe_note := of_nullable (le_note le) |}.

End AdminCallLog.

(** * Properties *)

(** ** Sanity checks on concrete inputs *)

Example sanitize_example :
  sanitizePhone (VStr (lit "+1 (555) 012-3456"))
  = Some {| display := lit "+15550123456"; digits := lit "15550123456" |}.
Proof. vm_compute. reflexivity. Qed.

Example status_examples :
  normalizeStatus (VStr (lit "WEIRD")) = Some (lit "ringing")
  /\ normalizeStatus (VStr (lit "NO_ANSWER")) = Some (lit "missed")
  /\ normalizeStatus (VStr (lit "  Answered ")) = Some (lit "answered")
  /\ normalizeStatus (VNum Zero) = Some (lit "ringing").
Proof. vm_compute. repeat split. Qed.

Example number_examples :
  String (VNum (Finite false 12345678901234567 20))
  = Some (lit "12345678901234567000")
  /\ String (VNum (Finite false 1 21)) = Some (lit "100000000000000000000")
  /\ String (VNum (Finite false 1 22)) = Some (lit "1e+21")
  /\ String (VNum (Finite false 12 23)) = Some (lit "1.2e+22")
  /\ String (VNum (Finite false 123456 3)) = Some (lit "123.456")
  /\ String (VNum (Finite false 5 0)) = Some (lit "0.5")
  /\ String (VNum (Finite false 1 (-5))) = Some (lit "0.000001")
  /\ String (VNum (Finite true 15 (-6))) = Some (lit "-1.5e-7")
  /\ String (VNum (Infinity true)) = Some (lit "-Infinity")
  /\ log_limit (VNum (Finite false 1 22)) = Some 1
  /\ sanitizePhone (VNum (Finite false 1 22))
     = Some {| display := lit "121"; digits := lit "121" |}
  /\ sanitizePhone (VNum (Finite false 12345678901234567 20))
     = Some {| display := lit "12345678901234567000";
               digits := lit "12345678901234567000" |}.
Proof. vm_compute. repeat split. Qed.

Example String_examples :
  String (VArr [VNum (Finite false 4 1); VNull; VStr (lit "x");
                VArr [VBool true; VNum (Finite true 7 1)]])
  = Some (lit "4,,x,true,-7")
  /\ String (VObj [(lit "a", VNum (Finite false 1 1))])
     = Some (lit "[object Object]")
  /\ String unprintable = None
  /\ String (VArr [VNum (Finite false 1 1); unprintable]) = None.
Proof. vm_compute. repeat split. Qed.

(** ** What each operation leaves alone *)

Lemma core_eq st st' :
  core st = core st' ->
  callHistory st = callHistory st' /\ lastCall st = lastCall st'
  /\ sequence st = sequence st'.
Proof. unfold core. intros H. by injection H. Qed.

Lemma cleanupListener_core l st : core (cleanupListener l st) = core st.
Proof. destruct l as [[r [t|]]|]; reflexivity. Qed.

Lemma res_write_core r f st : core (res_write r f st) = core st.
Proof. reflexivity. Qed.

Lemma broadcast_core throws e st : core (broadcast throws e st) = core st.
Proof.
  unfold broadcast, fanout. generalize (listeners st) as ls.
  intros ls; revert st; induction ls as [|l ls IH]; intros st; [done|].
  cbn [foldl]. rewrite IH. unfold deliver.
  destruct (throws (res l));
    [apply cleanupListener_core | apply res_write_core].
Qed.

Lemma removelast_take {A} (l : list A) :
  removelast l = take (length l - 1) l.
Proof.
  induction l as [|x [|y l] IH]; [done..|].
  change (removelast (x :: y :: l)) with (x :: removelast (y :: l)).
  rewrite IH. cbn [length]. rewrite !Nat.sub_succ, !Nat.sub_0_r. reflexivity.
Qed.

Lemma storeInHistory_history e st :
  (length (callHistory st) <= MAX_HISTORY)%nat ->
  callHistory (storeInHistory e st) = take MAX_HISTORY (e :: callHistory st).
Proof.
  intros Hlen. unfold storeInHistory.
  case_decide as Hover; cbn [callHistory set_callHistory length] in *.
  - rewrite removelast_take. f_equal. cbn [length]. lia.
  - symmetry. apply take_ge. cbn [length]. lia.
Qed.

Lemma storeInHistory_rest e st :
  lastCall (storeInHistory e st) = lastCall st
  /\ sequence (storeInHistory e st) = sequence st
  /\ listeners (storeInHistory e st) = listeners st
  /\ intervals (storeInHistory e st) = intervals st.
Proof.
  unfold storeInHistory.
  destruct (decide _); repeat split; reflexivity.
Qed.

(** ** The outcomes of an ingestion request *)

Lemma warn_core secret st : core (warn_unless_secret secret st) = core st.
Proof.
  unfold warn_unless_secret. destruct secret as [[|c s]|]; try done;
    by destruct (secretWarningLogged st).
Qed.

Lemma handle_post_plan secret r now throws st :
  handle_post secret r now throws st
  = let st0 := warn_unless_secret secret st in
    match plan_of secret r with
    | Plan401 => (st, Json 401 (BError (lit "invalid secret")))
    | PlanThrowBefore => (st0, Thrown)
    | Plan400 => (st0, Json 400 (BError (lit "phone missing")))
    | PlanThrowAfter => (set_sequence (S (sequence st0)) st0, Thrown)
    | PlanStore p extension source status =>
        let st1 := set_sequence (S (sequence st0)) st0 in
        let e := make_entry (sequence st1) p extension source status r now in
        (broadcast throws e (set_lastCall (Some e) (storeInHistory e st1)),
         Json 200 BSuccess)
    end.
Proof.
  unfold handle_post, plan_of. cbv zeta.
  destruct (secret_rejected secret r); [done|].
  destruct (sanitizePhone (phone_field r)) as [p|]; [|done].
  destruct (negb (nonempty (display p)) && negb (nonempty (digits p))); [done|].
  destruct (trimmed_or_null (body_field b_extension r)) as [ext|]; [|done].
  destruct (trimmed_or_null (body_field b_source r)) as [src|]; [|done].
  by destruct (normalizeStatus (body_field b_status r)).
Qed.

Lemma post_response secret r now throws st :
  snd (handle_post secret r now throws st) = plan_response (plan_of secret r).
Proof. rewrite handle_post_plan. cbv zeta. by destruct (plan_of secret r). Qed.

Lemma stored_core throws e st0 st :
  core st0 = core st ->
  core (broadcast throws e
          (set_lastCall (Some e)
             (storeInHistory e (set_sequence (S (sequence st0)) st0))))
  = (callHistory (storeInHistory e st), Some e, S (sequence st)).
Proof.
  intros (Hh & Hl & Hq)%core_eq. rewrite broadcast_core. unfold core.
  cbn [callHistory lastCall sequence set_lastCall].
  destruct (storeInHistory_rest e (set_sequence (S (sequence st0)) st0))
    as (_ & Hs1 & _).
  rewrite Hs1. cbn [sequence set_sequence]. rewrite Hq. f_equal. f_equal.
  unfold storeInHistory. cbn [callHistory set_callHistory set_sequence].
  rewrite Hh.
  destruct (decide _); cbn [callHistory set_callHistory set_sequence];
    rewrite Hh; reflexivity.
Qed.

Lemma post_core secret r now throws st :
  core (fst (handle_post secret r now throws st))
  = match plan_of secret r with
    | PlanStore p extension source status =>
        let e := make_entry (S (sequence st)) p extension source status r now in
        (callHistory (storeInHistory e st), Some e, S (sequence st))
    | PlanThrowAfter => (callHistory st, lastCall st, S (sequence st))
    | _ => core st
    end.
Proof.
  rewrite handle_post_plan. cbv zeta.
  pose proof (warn_core secret st) as Hw.
  destruct (plan_of secret r) as [| | | |p ext src status]; cbn [fst];
    try done.
  - apply core_eq in Hw as (Hh & Hl & Hq). unfold core.
    cbn [callHistory lastCall sequence set_sequence]. by rewrite Hh, Hl, Hq.
  - rewrite (stored_core throws _ _ st Hw).
    cbn [sequence set_sequence].
    by destruct (core_eq _ _ Hw) as (_ & _ & ->).
Qed.

(** ** Decimal ids *)

Lemma lit_inj s1 s2 : lit s1 = lit s2 -> s1 = s2.
Proof.
  unfold lit. intros H.
  rewrite <- (string_of_list_ascii_of_string s1),
          <- (string_of_list_ascii_of_string s2).
  f_equal. revert H.
  generalize (list_ascii_of_string s1) (list_ascii_of_string s2).
  induction l as [|a l IH]; intros [|b l'] H; try discriminate; [done|].
  injection H as Hab Hl. f_equal; [|by apply IH].
  rewrite <- (ascii_N_embedding a), <- (ascii_N_embedding b).
  by rewrite Hab.
Qed.

Lemma to_int_proper z : Z.to_int z <> Decimal.Pos Decimal.Nil
                        /\ Z.to_int z <> Decimal.Neg Decimal.Nil.
Proof.
  pose proof (DecimalZ.to_of (Z.to_int z)) as H.
  rewrite DecimalZ.of_to in H.
  split; intros E; rewrite E in H; discriminate H.
Qed.

Lemma decimal_inj a b :
  decimal a = decimal b -> a = b.
Proof.
  unfold decimal. intros H%lit_inj.
  apply DecimalZ.to_int_inj.
  destruct (to_int_proper a) as [Ha1 Ha2], (to_int_proper b) as [Hb1 Hb2].
  pose proof (NilZero.isi _ Ha1 Ha2) as Ia.
  pose proof (NilZero.isi _ Hb1 Hb2) as Ib.
  rewrite H in Ia. congruence.
Qed.

(** ** One step of the process *)

Lemma handle_stream_core user t1 t2 st :
  core (fst (handle_stream user t1 t2 st)) = core st.
Proof.
  unfold handle_stream. destruct user; [|done]. cbn [negb].
  destruct t1; [done|]. cbv zeta.
  match goal with |- context [lastCall ?s] => change (lastCall s) with (lastCall st) end.
  destruct (lastCall st); [destruct t2|]; done.
Qed.

Lemma heartbeat_tick_core h throws st :
  core (heartbeat_tick h throws st) = core st.
Proof.
  unfold heartbeat_tick. case_decide; [|done].
  destruct (sessions st !! h); [|done].
  destruct throws; [apply cleanupListener_core | done].
Qed.

Lemma on_close_core h st : core (on_close h st) = core st.
Proof.
  unfold on_close. destruct (sessions st !! h); [|done].
  apply cleanupListener_core.
Qed.

Lemma handle_log_core user limit db st :
  core (fst (handle_log user limit db st)) = core st.
Proof.
  unfold handle_log. destruct user; [|done]. cbn [negb].
  destruct (log_limit limit); [|done]. cbv zeta.
  destruct (load_people _ _) as [m [|]]; done.
Qed.

Lemma step_core ev st :
  core (fst (step ev st))
  = match accepted ev st with
    | Some e => (callHistory (storeInHistory e st), Some e, S (sequence st))
    | None =>
        (callHistory st, lastCall st,
         if throws_late ev then S (sequence st) else sequence st)
    end.
Proof.
  destruct ev as [secret r now throws|user t1 t2|user|user limit db|h|h t];
    cbn [step accepted throws_late].
  - pose proof (post_core secret r now throws st) as Hp.
    destruct (handle_post secret r now throws st) as [st' resp].
    cbn [fst] in *. rewrite Hp. by destruct (plan_of secret r).
  - pose proof (handle_stream_core user t1 t2 st).
    by destruct (handle_stream user t1 t2 st).
  - unfold handle_last. by destruct user.
  - pose proof (handle_log_core user limit db st).
    by destruct (handle_log user limit db st).
  - apply on_close_core.
  - apply heartbeat_tick_core.
Qed.

Lemma ingested_cons ev rest st :
  ingested (ev :: rest) st
  = match accepted ev st with
    | Some e => e :: ingested rest (fst (step ev st))
    | None => ingested rest (fst (step ev st))
    end.
Proof.
  cbn [ingested].
  destruct ev as [secret r now throws|user t1 t2|user|user limit db|h|h t];
    cbn [accepted]; try by destruct (step _ st) as [st' [[]|]].
  pose proof (step_core (EPost secret r now throws) st) as Hc.
  cbn [step accepted] in *.
  pose proof (post_response secret r now throws st) as Hr.
  destruct (handle_post secret r now throws st) as [st' resp].
  cbn [fst snd] in *. subst resp.
  destruct (plan_of secret r); cbn [plan_response]; try done.
  unfold core in Hc. injection Hc as _ Hl _. by rewrite Hl.
Qed.

(** ** The history ring *)

Lemma take_app_take {A} n (a b : list A) :
  take n (a ++ take n b) = take n (a ++ b).
Proof. rewrite !take_app, take_take. do 2 f_equal. lia. Qed.

Lemma store_all_cons e es st :
  store_all (e :: es) st = store_all es (storeInHistory e st).
Proof. reflexivity. Qed.

Lemma store_all_history es st :
  (length (callHistory st) <= MAX_HISTORY)%nat ->
  callHistory (store_all es st)
  = take MAX_HISTORY (reverse es ++ callHistory st).
Proof.
  revert st. induction es as [|e es IH]; intros st Hlen.
  - cbn. symmetry. by apply take_ge.
  - rewrite store_all_cons.
    pose proof (storeInHistory_history e st Hlen) as Hs.
    rewrite IH, Hs.
    + rewrite take_app_take, reverse_cons, <- app_assoc. done.
    + rewrite Hs, length_take. lia.
Qed.

Lemma run_cons ev rest st : run (ev :: rest) st = run rest (fst (step ev st)).
Proof. reflexivity. Qed.

Lemma step_history ev st :
  (length (callHistory st) <= MAX_HISTORY)%nat ->
  callHistory (fst (step ev st))
  = match accepted ev st with
    | Some e => take MAX_HISTORY (e :: callHistory st)
    | None => callHistory st
    end.
Proof.
  intros Hlen. pose proof (step_core ev st) as Hc.
  destruct (accepted ev st) as [e|]; injection Hc as -> _ _; [|done].
  by apply storeInHistory_history.
Qed.

Lemma run_history evs st :
  (length (callHistory st) <= MAX_HISTORY)%nat ->
  callHistory (run evs st)
  = take MAX_HISTORY (reverse (ingested evs st) ++ callHistory st).
Proof.
  revert st. induction evs as [|ev evs IH]; intros st Hlen.
  - cbn. symmetry. by apply take_ge.
  - rewrite run_cons, ingested_cons.
    pose proof (step_history ev st Hlen) as Hs.
    assert (Hlen' : (length (callHistory (fst (step ev st))) <= MAX_HISTORY)%nat).
    { rewrite Hs. destruct (accepted ev st); [|done].
      rewrite length_take. lia. }
    rewrite (IH _ Hlen'), Hs.
    destruct (accepted ev st) as [e|]; [|done].
    by rewrite take_app_take, reverse_cons, <- app_assoc.
Qed.

Lemma accepted_not_late ev st e :
  accepted ev st = Some e -> throws_late ev = false.
Proof.
  destruct ev as [secret r now throws| | | | |]; try done.
  cbn [accepted throws_late]. by destruct (plan_of secret r).
Qed.

Lemma accepted_id ev st e :
  accepted ev st = Some e -> Entry.id e = id_of (S (sequence st)).
Proof.
  destruct ev as [secret r now throws| | | | |]; try done.
  cbn [accepted]. destruct (plan_of secret r); try done. by intros [= <-].
Qed.

(** The counter counts the ingestions that stored an entry and those that
    threw after [++sequence]. *)
Lemma run_sequence evs st :
  sequence (run evs st)
  = (sequence st + length (ingested evs st)
     + length (filter (fun ev => throws_late ev = true) evs))%nat.
Proof.
  revert st. induction evs as [|ev evs IH]; intros st.
  - cbn. lia.
  - rewrite run_cons, ingested_cons, IH, filter_cons.
    pose proof (step_core ev st) as Hc.
    destruct (accepted ev st) as [e|] eqn:Ha.
    + apply accepted_not_late in Ha. rewrite Ha.
      injection Hc as _ _ ->. case_decide; [done|]. cbn [length]. lia.
    + injection Hc as _ _ ->.
      destruct (throws_late ev); case_decide; try done; cbn [length]; lia.
Qed.

(** Without an ingestion that throws after [++sequence], the stored ids are
    the consecutive numbers that follow the counter. *)
Lemma ingested_ids evs st :
  Forall (fun ev => throws_late ev = false) evs ->
  map Entry.id (ingested evs st)
  = map id_of (seq (S (sequence st)) (length (ingested evs st))).
Proof.
  intros Hall. revert st.
  induction Hall as [|ev evs Hev Hall IH]; intros st; [done|].
  rewrite ingested_cons. pose proof (step_core ev st) as Hc.
  destruct (accepted ev st) as [e|] eqn:Ha; injection Hc as _ _ Hq.
  - cbn [map length seq]. rewrite IH, Hq. f_equal.
    by apply (accepted_id ev st).
  - rewrite Hev in Hq. by rewrite IH, Hq.
Qed.

Lemma step_ring_inv ev st : ring_inv st -> ring_inv (fst (step ev st)).
Proof.
  intros [Hlen Hlast]. pose proof (step_history ev st Hlen) as Hh.
  pose proof (step_core ev st) as Hc. unfold ring_inv. rewrite Hh.
  destruct (accepted ev st) as [e|]; injection Hc as _ -> _.
  - split; [rewrite length_take; lia | done].
  - done.
Qed.

Lemma run_ring_inv evs st : ring_inv st -> ring_inv (run evs st).
Proof.
  revert st. induction evs as [|ev evs IH]; intros st H; [done|].
  rewrite run_cons. by apply IH, step_ring_inv.
Qed.

Lemma initial_ring_inv : ring_inv initial.
Proof. split; cbn; [lia | done]. Qed.

(** ** Claims on ids, the ring and [lastCall] *)

(** Along a sequence of events none of which throws after [++sequence], the
    n-th accepted ingestion stores an entry whose id is the decimal string
    of n (counting from 1), the counter equals the number of accepted
    ingestions, and different numbers give different ids. *)
Lemma ids_consecutive_without_late_throw (evs : list event) :
  Forall (fun ev => throws_late ev = false) evs ->
  let es := ingested evs initial in
  (forall (n : nat) (e : entry), es !! n = Some e -> Entry.id e = id_of (S n))
  /\ sequence (run evs initial) = length es
  /\ (forall m n : nat, id_of m = id_of n -> m = n).
Proof.
  intros Hall es. repeat split.
  - intros n e Hn.
    pose proof (ingested_ids evs initial Hall) as Hids. fold es in Hids.
    apply (f_equal (fun l => l !! n)) in Hids.
    rewrite !list_lookup_fmap, Hn in Hids. cbn [fmap option_fmap option_map] in Hids.
    assert (Hlt : (n < length es)%nat) by (apply lookup_lt_is_Some; eauto).
    rewrite (lookup_seq_lt _ _ _ Hlt) in Hids. cbn in Hids. congruence.
  - rewrite run_sequence. fold es.
    replace (filter _ evs) with (@nil event); [cbn; lia|].
    symmetry. clear es. induction Hall as [|ev evs Hev _ IH]; [done|].
    rewrite filter_cons. case_decide; [congruence|done].
  - intros m n H. apply decimal_inj in H. lia.
Qed.

(** C1, at a request the code can receive: a POST with a phone whose status
    is the object [{"toString": null}] passes the secret and phone tests,
    increments the counter, and then throws in [normalizeStatus]; nothing
    is stored, and the next accepted ingestion, the first one, gets the id
    "2" and not "1". *)
Theorem thrown_status_leaves_id_gap :
  let evs := [crash_post; sample_post "0123"] in
  snd (step crash_post initial) = Some Thrown
  /\ sequence (fst (step crash_post initial)) = 1%nat
  /\ callHistory (fst (step crash_post initial)) = []
  /\ map Entry.id (ingested evs initial) = [lit "2"]
  /\ map Entry.id (ingested evs initial)
     <> map id_of (seq 1 (length (ingested evs initial))).
Proof. vm_compute. repeat split. discriminate. Qed.

(** C2: the ring never holds more than [MAX_HISTORY] = 500 entries; after
    any sequence of insertions it holds the most recent 500 of them (all of
    them when fewer), newest first; after 500 + k insertions it holds
    exactly the last 500; one insertion puts the new entry in front and,
    when the ring was full, drops its last (oldest) entry and nothing
    else. *)
Theorem history_ring_capacity (es : list entry) :
  let ring := callHistory (store_all es initial) in
  MAX_HISTORY = 500%nat
  /\ (length ring <= MAX_HISTORY)%nat
  /\ ring = take MAX_HISTORY (reverse es)
  /\ (forall k : nat, length es = (MAX_HISTORY + k)%nat ->
        ring = reverse (drop k es) /\ length ring = MAX_HISTORY)
  /\ (forall (e : entry) (st : state),
        (length (callHistory st) <= MAX_HISTORY)%nat ->
        callHistory (storeInHistory e st)
        = if decide (length (callHistory st) = MAX_HISTORY)
          then e :: removelast (callHistory st)
          else e :: callHistory st).
Proof.
  intros ring.
  assert (Hring : ring = take MAX_HISTORY (reverse es)).
  { unfold ring. rewrite store_all_history by (cbn; lia).
    cbn [callHistory initial]. by rewrite app_nil_r. }
  split; [done|]. split; [rewrite Hring, length_take; lia|].
  split; [done|]. split.
  - intros k Hk. rewrite Hring. split.
    + rewrite take_reverse. do 2 f_equal. lia.
    + rewrite length_take, length_reverse. lia.
  - intros e st Hlen. rewrite storeInHistory_history by done.
    case_decide as Hfull.
    + rewrite removelast_take, Hfull.
      change (take MAX_HISTORY (e :: callHistory st))
        with (e :: take (MAX_HISTORY - 1) (callHistory st)).
      done.
    + apply take_ge. cbn [length]. lia.
Qed.

Lemma history_ring_capacity_witness :
  length (map sample_entry (seq 1 502)) = (MAX_HISTORY + 2)%nat
  /\ length (callHistory (store_all (map sample_entry (seq 1 502)) initial))
     = MAX_HISTORY.
Proof.
  assert (H : length (map sample_entry (seq 1 502)) = (MAX_HISTORY + 2)%nat)
    by (rewrite length_map, length_seq; reflexivity).
  split; [exact H|].
  destruct (history_ring_capacity (map sample_entry (seq 1 502)))
    as (_ & _ & _ & Hk & _).
  exact (proj2 (Hk 2%nat H)).
Defined.

(** C10: in every reachable state [lastCall] is [null] exactly when the
    ring is empty, and otherwise it is the first (newest) entry of the
    ring; an accepted ingestion stores its entry both as [lastCall] and as
    the first entry of the ring. *)
Theorem lastCall_is_newest (st : state) :
  reachable st ->
  (lastCall st = None <-> callHistory st = [])
  /\ lastCall st = head (callHistory st)
  /\ (forall ev e, accepted ev st = Some e ->
        lastCall (fst (step ev st)) = Some e
        /\ head (callHistory (fst (step ev st))) = Some e).
Proof.
  intros [evs ->].
  pose proof (run_ring_inv evs initial initial_ring_inv) as [Hlen Hlast].
  split; [|split; [done|]].
  - rewrite Hlast. by destruct (callHistory (run evs initial)).
  - intros ev e Ha.
    pose proof (step_core ev (run evs initial)) as Hc.
    pose proof (step_history ev (run evs initial) Hlen) as Hh.
    rewrite Ha in Hc, Hh. injection Hc as _ -> _. by rewrite Hh.
Qed.

Lemma lastCall_is_newest_witness :
  lastCall (run sample_run initial)
  = head (callHistory (run sample_run initial))
  /\ lastCall (run sample_run initial) <> None.
Proof.
  split.
  - apply (lastCall_is_newest (run sample_run initial)).
    exists sample_run. reflexivity.
  - vm_compute. discriminate.
Defined.

(** ** Fan-out *)

Section Fanout.
Variable throws : nat -> bool.
Variable event : entry.

Local Abbreviation fan := (fanout throws event).

Lemma fan_cons l ls st : fan (l :: ls) st = fan ls (deliver throws event st l).
Proof. reflexivity. Qed.

Lemma deliver_written_other st l r :
  res l <> r \/ throws (res l) = true ->
  written (deliver throws event st l) !! r = written st !! r.
Proof.
  intros H. unfold deliver. destruct (throws (res l)) eqn:Ht.
  - by destruct l as [rl [t|]].
  - destruct H as [H|H]; [|done].
    cbn [written res_write set_written]. by rewrite lookup_insert_ne.
Qed.

Lemma fan_written_other ls st r :
  r ∉ map res ls \/ throws r = true ->
  written (fan ls st) !! r = written st !! r.
Proof.
  revert st. induction ls as [|l ls IH]; intros st H; [done|].
  rewrite fan_cons. rewrite IH.
  - apply deliver_written_other.
    destruct H as [H|H]; [left|].
    + intros E. apply H. cbn [map]. rewrite E. left.
    + destruct (decide (res l = r)) as [->|Hne]; [by right|by left].
  - destruct H as [H|H]; [left|by right].
    intros Hin. apply H. cbn [map]. by right.
Qed.

Lemma fan_written_delivered ls st r :
  NoDup (map res ls) -> r ∈ map res ls -> throws r = false ->
  written (fan ls st) !! r
  = Some (default [] (written st !! r) ++ [FCall event]).
Proof.
  revert st. induction ls as [|l ls IH]; intros st Hnd Hin Ht.
  - by apply elem_of_nil in Hin.
  - cbn [map] in Hnd, Hin. apply NoDup_cons in Hnd as [Hfresh Hnd].
    rewrite fan_cons.
    destruct (decide (res l = r)) as [<-|Hne].
    + rewrite fan_written_other by by left.
      unfold deliver. rewrite Ht.
      cbn [written res_write set_written]. by rewrite lookup_insert_eq.
    + apply elem_of_cons in Hin as [Hin|Hin]; [congruence|].
      rewrite IH by done. by rewrite deliver_written_other by by left.
Qed.

Lemma deliver_listeners st l :
  listeners (deliver throws event st l)
  = if throws (res l) then set_delete l (listeners st) else listeners st.
Proof. unfold deliver. destruct (throws (res l)); [|done]. by destruct l as [rl [t|]]. Qed.

Lemma fan_listeners ls st l :
  l ∈ listeners (fan ls st)
  <-> l ∈ listeners st /\ ~ (l ∈ ls /\ throws (res l) = true).
Proof.
  revert st. induction ls as [|x ls IH]; intros st.
  - cbn. split; [intros H; split; [done|]|by intros [H _]].
    intros [Hin _]. by apply elem_of_nil in Hin.
  - rewrite fan_cons. rewrite IH, deliver_listeners.
    destruct (throws (res x)) eqn:Hx.
    + unfold set_delete. rewrite list_elem_of_filter.
      split.
      * intros [[Hne Hin] Hno]. split; [done|].
        intros [[->|Hin']%elem_of_cons Ht]; [done|]. by apply Hno.
      * intros [Hin Hno]. split; [split; [|done]|].
        -- intros ->. apply Hno. split; [left|done].
        -- intros [Hin' Ht]. apply Hno. split; [by right|done].
    + split.
      * intros [Hin Hno]. split; [done|].
        intros [[->|Hin']%elem_of_cons Ht]; [congruence|]. by apply Hno.
      * intros [Hin Hno]. split; [done|].
        intros [Hin' Ht]. apply Hno. split; [by right|done].
Qed.

Lemma deliver_intervals st l t :
  t ∈ intervals (deliver throws event st l)
  <-> t ∈ intervals st
      /\ ~ (throws (res l) = true /\ heartbeat l = Some t).
Proof.
  unfold deliver. destruct (throws (res l)).
  - destruct l as [rl [t'|]]; cbn; [set_solver|naive_solver].
  - cbn. naive_solver.
Qed.

Lemma fan_intervals ls st t :
  t ∈ intervals (fan ls st)
  <-> t ∈ intervals st
      /\ ~ (exists l, l ∈ ls /\ throws (res l) = true /\ heartbeat l = Some t).
Proof.
  revert st. induction ls as [|x ls IH]; intros st.
  - cbn. split; [intros H; split; [done|]|by intros [H _]].
    intros (l & Hin & _). by apply elem_of_nil in Hin.
  - rewrite fan_cons. rewrite IH, deliver_intervals.
    split.
    + intros [[Hin Hx] Hno]. split; [done|].
      intros (l & [->|Hl]%elem_of_cons & Ht & Hh); [by apply Hx|].
      apply Hno. eauto.
    + intros [Hin Hno]. split; [split; [done|]|].
      * intros [Ht Hh]. apply Hno. exists x. split; [left|done].
      * intros (l & Hl & Ht & Hh). apply Hno. exists l.
        split; [by right|done].
Qed.

Lemma fan_rest ls st :
  sessions (fan ls st) = sessions st
  /\ next_handle (fan ls st) = next_handle st
  /\ console (fan ls st) = console st
  /\ secretWarningLogged (fan ls st) = secretWarningLogged st.
Proof.
  revert st. induction ls as [|x ls IH]; intros st; [done|].
  rewrite fan_cons.
  destruct (IH (deliver throws event st x)) as (-> & -> & -> & ->).
  unfold deliver. destruct (throws (res x)); [|done].
  by destruct x as [rl [t|]].
Qed.
End Fanout.

(** ** The stream invariant *)

Lemma hub_eq st st' :
  hub st = hub st' ->
  listeners st = listeners st' /\ sessions st = sessions st'
  /\ next_handle st = next_handle st' /\ intervals st = intervals st'.
Proof. unfold hub. intros H. by injection H. Qed.

Lemma hub_inv_ext st st' : hub st = hub st' -> hub_inv st -> hub_inv st'.
Proof.
  unfold hub, hub_inv. intros H. injection H as <- <- <- <-. done.
Qed.

Lemma NoDup_res_filter (P : listener -> Prop) `{!forall l, Decision (P l)}
    (ls : list listener) :
  NoDup (map res ls) -> NoDup (map res (filter P ls)).
Proof.
  intros Hnd. eapply sublist_NoDup; [exact Hnd|].
  apply (fmap_sublist res), sublist_filter.
Qed.

Lemma cleanupListener_hub_inv l st :
  hub_inv st -> hub_inv (cleanupListener l st).
Proof.
  intros (Hnd & Hl & Hs & Hi). destruct l as [l|]; [|done].
  assert (Hsub : forall x, x ∈ set_delete l (listeners st) -> x ∈ listeners st).
  { intros x Hx. unfold set_delete in Hx. by apply list_elem_of_filter in Hx as [_ ?]. }
  destruct l as [rl [t|]]; cbn -[set_delete];
    (split; [by apply NoDup_res_filter|]);
    (split; [intros x Hx; by apply Hl, Hsub|]);
    (split; [done|]); [|done].
  intros h Hh. apply Hi. set_solver.
Qed.

Lemma deliver_hub_inv throws e st l :
  hub_inv st -> hub_inv (deliver throws e st l).
Proof.
  intros H. unfold deliver. destruct (throws (res l)).
  - by apply cleanupListener_hub_inv.
  - by apply (hub_inv_ext st).
Qed.

Lemma fanout_hub_inv throws e ls st :
  hub_inv st -> hub_inv (fanout throws e ls st).
Proof.
  revert st. induction ls as [|l ls IH]; intros st H; [done|].
  rewrite fan_cons. by apply IH, deliver_hub_inv.
Qed.

Lemma storeInHistory_hub e st : hub (storeInHistory e st) = hub st.
Proof. unfold storeInHistory. destruct (decide _); reflexivity. Qed.

Lemma set_lastCall_hub c st : hub (set_lastCall c st) = hub st.
Proof. reflexivity. Qed.

Lemma set_sequence_hub n st : hub (set_sequence n st) = hub st.
Proof. reflexivity. Qed.

Lemma warn_hub secret st : hub (warn_unless_secret secret st) = hub st.
Proof.
  unfold warn_unless_secret. destruct secret as [[|c s]|]; try done;
    by destruct (secretWarningLogged st).
Qed.

Lemma before_broadcast_hub secret e n st :
  hub (set_lastCall (Some e)
         (storeInHistory e (set_sequence n (warn_unless_secret secret st))))
  = hub st.
Proof.
  by rewrite set_lastCall_hub, storeInHistory_hub, set_sequence_hub, warn_hub.
Qed.

Lemma handle_post_hub_inv secret r now throws st :
  hub_inv st -> hub_inv (fst (handle_post secret r now throws st)).
Proof.
  intros H. rewrite handle_post_plan. cbv zeta.
  destruct (plan_of secret r) as [| | | |p ext src status]; cbn [fst];
    try done;
    try (eapply hub_inv_ext; [|exact H];
         by rewrite ?set_sequence_hub, warn_hub).
  apply fanout_hub_inv. eapply hub_inv_ext; [|exact H].
  symmetry. apply before_broadcast_hub.
Qed.

Lemma set_add_fresh (l : listener) (ls : list listener) :
  l ∉ ls -> set_add l ls = ls ++ [l].
Proof. intros H. unfold set_add. by case_decide. Qed.

Lemma handle_stream_hub_inv user t1 t2 st :
  hub_inv st -> hub_inv (fst (handle_stream user t1 t2 st)).
Proof.
  intros (Hnd & Hl & Hs & Hi). unfold handle_stream.
  destruct user; [|done]. cbn [negb]. cbv zeta.
  set (h := next_handle st). set (l := {| res := h; heartbeat := Some h |}).
  assert (Hres : forall x, x ∈ listeners st -> (res x < h)%nat).
  { intros x Hx. by destruct (Hs _ _ (Hl x Hx)). }
  assert (Hfresh : l ∉ listeners st).
  { intros Hin. apply Hres in Hin. cbn in Hin. lia. }
  destruct t1.
  { unfold hub_inv. cbn. split; [done|]. split; [done|]. split.
    - intros h' l' Hh'. destruct (Hs _ _ Hh'). split; [done|]. fold h. lia.
    - intros h' Hh'. apply Hi in Hh'. fold h. lia. }
  assert (Hinv : hub_inv
    (set_listeners (set_add l)
       (set_sessions (fun m => <[h:=l]> m)
          (set_intervals (fun s => s ∪ {[h]})
             (res_write h FRetry (set_next_handle (S h) st)))))).
  { unfold hub_inv. cbn -[set_add]. rewrite set_add_fresh by done.
    split; [|split; [|split]].
    - rewrite map_app. cbn [map]. apply NoDup_app. split; [done|].
      split; [|apply NoDup_singleton].
      intros r Hr Hr'. apply list_elem_of_singleton in Hr'. subst r.
      apply list_elem_of_fmap in Hr as (x & Hx & Hin).
      apply Hres in Hin. cbn in Hx. lia.
    - intros x [Hx|Hx]%elem_of_app.
      + rewrite lookup_insert_ne; [by apply Hl|].
        apply Hres in Hx. lia.
      + apply list_elem_of_singleton in Hx. subst x. cbn.
        by rewrite lookup_insert_eq.
    - intros h' l' Hh'. destruct (decide (h = h')) as [<-|Hne].
      + rewrite lookup_insert_eq in Hh'. injection Hh' as <-.
        split; [done|lia].
      + rewrite lookup_insert_ne in Hh' by done.
        destruct (Hs _ _ Hh'). split; [done|]. fold h. lia.
    - intros h' [Hh'|Hh']%elem_of_union.
      + apply Hi in Hh'. fold h in Hh'. lia.
      + apply elem_of_singleton in Hh'. lia. }
  match goal with |- context [lastCall ?s] => change (lastCall s) with (lastCall st) end.
  destruct (lastCall st); [destruct t2|]; cbn [fst]; done.
Qed.

Lemma step_hub_inv ev st : hub_inv st -> hub_inv (fst (step ev st)).
Proof.
  intros H.
  destruct ev as [secret r now throws|user t1 t2|user|user limit db|h|h t];
    cbn [step].
  - pose proof (handle_post_hub_inv secret r now throws st H).
    by destruct (handle_post secret r now throws st).
  - pose proof (handle_stream_hub_inv user t1 t2 st H).
    by destruct (handle_stream user t1 t2 st).
  - unfold handle_last. by destruct user.
  - unfold handle_log. destruct user; [|done]. cbn [negb].
    destruct (log_limit limit); [|done]. cbv zeta.
    destruct (load_people _ _) as [m [|]]; cbn [fst]; [|done].
    by apply (hub_inv_ext st).
  - cbn [fst]. unfold on_close. destruct (sessions st !! h); [|done].
    by apply cleanupListener_hub_inv.
  - cbn [fst]. unfold heartbeat_tick. case_decide; [|done].
    destruct (sessions st !! h); [|done].
    destruct t; [by apply cleanupListener_hub_inv|].
    by apply (hub_inv_ext st).
Qed.

Lemma run_hub_inv evs st : hub_inv st -> hub_inv (run evs st).
Proof.
  revert st. induction evs as [|ev evs IH]; intros st H; [done|].
  rewrite run_cons. by apply IH, step_hub_inv.
Qed.

Lemma initial_hub_inv : hub_inv initial.
Proof.
  unfold hub_inv. cbn. repeat split.
  - apply NoDup_nil_2.
  - intros l Hl. by apply elem_of_nil in Hl.
  - by rewrite lookup_empty in H.
  - by rewrite lookup_empty in H.
  - intros h Hh. set_solver.
Qed.

Lemma reachable_hub_inv st : reachable st -> hub_inv st.
Proof. intros [evs ->]. apply run_hub_inv, initial_hub_inv. Qed.

(** ** Timers that were cleared stay cleared *)

Lemma cleanupListener_intervals l st h :
  h ∈ intervals (cleanupListener l st) -> h ∈ intervals st.
Proof. destruct l as [[r [t|]]|]; cbn; set_solver. Qed.

Lemma cleanupListener_frame l st :
  next_handle (cleanupListener l st) = next_handle st
  /\ sessions (cleanupListener l st) = sessions st.
Proof. by destruct l as [[r [t|]]|]. Qed.

Lemma handle_post_frame secret r now throws st :
  (forall h, h ∈ intervals (fst (handle_post secret r now throws st)) ->
             h ∈ intervals st)
  /\ next_handle (fst (handle_post secret r now throws st)) = next_handle st.
Proof.
  rewrite handle_post_plan. cbv zeta.
  destruct (hub_eq _ _ (warn_hub secret st)) as (_ & _ & Hn & Hi).
  destruct (plan_of secret r) as [| | | |p ext src status]; cbn [fst];
    try done; try (cbn [intervals next_handle set_sequence]; by rewrite Hn, Hi).
  set (e := make_entry _ p ext src status r now).
  set (n := S _).
  destruct (hub_eq _ _ (before_broadcast_hub secret e n st)) as (_ & _ & Hn' & Hi').
  unfold broadcast. split.
  - intros h Hin. apply fan_intervals in Hin as [Hin _]. by rewrite Hi' in Hin.
  - rewrite <- Hn'. apply fan_rest.
Qed.

Lemma step_cleared ev st h :
  (h < next_handle st)%nat -> h ∉ intervals st ->
  (h < next_handle (fst (step ev st)))%nat
  /\ h ∉ intervals (fst (step ev st)).
Proof.
  intros Hlt Hno.
  destruct ev as [secret r now throws|user t1 t2|user|user limit db|k|k t];
    cbn [step].
  - pose proof (handle_post_frame secret r now throws st) as [Hi Hn].
    destruct (handle_post secret r now throws st) as [st' resp].
    cbn [fst] in *. rewrite Hn. split; [done|]. intros Hin. by apply Hno, Hi.
  - unfold handle_stream. destruct user; [|done]. cbn [negb]. cbv zeta.
    destruct t1; [cbn; split; [lia|done]|].
    match goal with |- context [lastCall ?s] => change (lastCall s) with (lastCall st) end.
    destruct (lastCall st); [destruct t2|]; cbn;
      (split; [lia|]); intros [Hin|Hin]%elem_of_union; try done;
      apply elem_of_singleton in Hin; lia.
  - unfold handle_last. by destruct user.
  - unfold handle_log. destruct user; [|done]. cbn [negb].
    destruct (log_limit limit); [|done]. cbv zeta.
    by destruct (load_people _ _) as [m [|]].
  - cbn [fst]. unfold on_close. destruct (sessions st !! k); [|done].
    destruct (cleanupListener_frame (Some l) st) as [-> _].
    split; [done|]. intros Hin. by apply Hno, (cleanupListener_intervals (Some l)).
  - cbn [fst]. unfold heartbeat_tick. case_decide; [|done].
    destruct (sessions st !! k); [|done]. destruct t; [|done].
    destruct (cleanupListener_frame (Some l) st) as [-> _].
    split; [done|]. intros Hin. by apply Hno, (cleanupListener_intervals (Some l)).
Qed.

Lemma run_cleared evs st h :
  (h < next_handle st)%nat -> h ∉ intervals st -> h ∉ intervals (run evs st).
Proof.
  revert st. induction evs as [|ev evs IH]; intros st Hlt Hno; [done|].
  rewrite run_cons. destruct (step_cleared ev st h Hlt Hno). by apply IH.
Qed.

Lemma set_delete_idemp (l : listener) (ls : list listener) :
  set_delete l (set_delete l ls) = set_delete l ls.
Proof.
  unfold set_delete. induction ls as [|x ls IH]; [done|].
  rewrite filter_cons. case_decide as Hx; [|done].
  rewrite filter_cons. case_decide; [|done]. by rewrite IH.
Qed.

Lemma set_delete_not_in (l : listener) (ls : list listener) :
  l ∉ set_delete l ls.
Proof. unfold set_delete. rewrite list_elem_of_filter. by intros [? _]. Qed.

Lemma cleanupListener_twice l st :
  cleanupListener l (cleanupListener l st) = cleanupListener l st.
Proof.
  destruct l as [[r [t|]]|]; [| |done].
  - unfold cleanupListener, clearInterval, set_listeners, set_intervals.
    cbn -[set_delete]. rewrite set_delete_idemp. f_equal. set_solver.
  - unfold cleanupListener, set_listeners. cbn -[set_delete].
    by rewrite set_delete_idemp.
Qed.

(** ** Claims on fan-out and clean-up *)

(** C3: when [broadcast] runs in a state whose listeners have distinct
    responses (every reachable state is such), a listener whose write
    throws is removed from the set and its timer is cleared, and every
    other listener stays registered and receives the event, once, after
    what it had received; the ingestion state is untouched and the reply
    to the publisher is the one it would get if no write had thrown. *)
Theorem broadcast_isolates_failures (throws : nat -> bool) (e : entry)
    (st : state) :
  NoDup (map res (listeners st)) ->
  let st' := broadcast throws e st in
  (forall s, s ∈ listeners st -> throws (res s) = true ->
     s ∉ listeners st'
     /\ (forall t, heartbeat s = Some t -> t ∉ intervals st'))
  /\ (forall l, l ∈ listeners st -> throws (res l) = false ->
        l ∈ listeners st'
        /\ written st' !! res l
           = Some (default [] (written st !! res l) ++ [FCall e]))
  /\ core st' = core st
  /\ (forall secret r now,
        snd (handle_post secret r now throws st)
        = snd (handle_post secret r now (fun _ => false) st)).
Proof.
  intros Hnd st'. split; [|split; [|split]].
  - intros s Hs Ht. split.
    + intros Hin. apply fan_listeners in Hin as [_ Hno]. by apply Hno.
    + intros t Hh Hin. apply fan_intervals in Hin as [_ Hno].
      apply Hno. eauto.
  - intros l Hl Ht. split.
    + apply fan_listeners. split; [done|]. intros [_ Ht']. congruence.
    + apply fan_written_delivered; [done| |done].
      apply list_elem_of_fmap. eauto.
  - apply broadcast_core.
  - intros secret r now. by rewrite !post_response.
Qed.

Lemma reachable_NoDup_res st : reachable st -> NoDup (map res (listeners st)).
Proof. intros H. by destruct (reachable_hub_inv st H). Qed.

Lemma broadcast_isolates_failures_witness :
  let throws := fun r => Nat.eqb r 0 in
  let st' := broadcast throws (sample_entry 1) two_streams in
  listeners st' = [ {| res := 1; heartbeat := Some 1%nat |} ]
  /\ written st' !! 1%nat = Some [FRetry; FCall (sample_entry 1)].
Proof.
  intros throws st'.
  assert (Hnd : NoDup (map res (listeners two_streams))).
  { apply (bool_decide_unpack _). vm_compute. exact I. }
  destruct (broadcast_isolates_failures throws (sample_entry 1) two_streams Hnd)
    as (_ & Hok & _).
  split; [vm_compute; reflexivity|].
  destruct (Hok {| res := 1; heartbeat := Some 1%nat |}) as [_ Hw].
  - vm_compute. right. left.
  - reflexivity.
  - etrans; [exact Hw|]. vm_compute. reflexivity.
Defined.

(** C4: running [cleanupListener] a second time changes nothing, for any
    argument ([null] included) and any state, and it is a total function,
    so it raises nothing; after a clean-up the listener is not registered
    and its timer is not active; and in a reachable state, once the session
    with handle [h] was cleaned up, its interval callback writes nothing and
    changes nothing, whatever events follow. *)
Theorem cleanup_idempotent (l : option listener) (st : state) :
  cleanupListener l (cleanupListener l st) = cleanupListener l st
  /\ (forall s, l = Some s ->
        s ∉ listeners (cleanupListener l st)
        /\ (forall t, heartbeat s = Some t ->
              t ∉ intervals (cleanupListener l st)))
  /\ (forall h s evs throws,
        reachable st -> sessions st !! h = Some s -> l = Some s ->
        let st' := run evs (cleanupListener l st) in
        heartbeat_tick h throws st' = st'
        /\ on_close h (on_close h st) = on_close h st).
Proof.
  split; [apply cleanupListener_twice|]. split.
  - intros s ->. split.
    + destruct s as [r [t|]]; apply set_delete_not_in.
    + intros t Ht. destruct s as [r [t'|]]; [|done].
      injection Ht as ->. cbn. set_solver.
  - intros h s evs throws Hreach Hs -> st'.
    destruct (reachable_hub_inv st Hreach) as (_ & _ & Hses & _).
    destruct (Hses h s Hs) as [-> Hlt]. split.
    + unfold heartbeat_tick. case_decide as Hin; [|done].
      exfalso. revert Hin. apply run_cleared.
      * by destruct (cleanupListener_frame (Some {| res := h; heartbeat := Some h |}) st) as [-> _].
      * cbn. set_solver.
    + unfold on_close. rewrite Hs.
      destruct (cleanupListener_frame (Some {| res := h; heartbeat := Some h |}) st) as [_ ->].
      rewrite Hs. apply cleanupListener_twice.
Qed.

Lemma cleanup_idempotent_witness :
  let l := {| res := 0; heartbeat := Some 0%nat |} in
  sessions two_streams !! 0%nat = Some l
  /\ l ∉ listeners (cleanupListener (Some l) two_streams)
  /\ heartbeat_tick 0 false
       (run [sample_post "0123"] (cleanupListener (Some l) two_streams))
     = run [sample_post "0123"] (cleanupListener (Some l) two_streams).
Proof.
  intros l.
  assert (Hs : sessions two_streams !! 0%nat = Some l) by (vm_compute; reflexivity).
  destruct (cleanup_idempotent (Some l) two_streams) as (_ & H1 & H2).
  split; [exact Hs|]. split.
  - apply (H1 l eq_refl).
  - apply (H2 0%nat l [sample_post "0123"] false); [by eexists|exact Hs|reflexivity].
Defined.

(** ** Normalisation *)

Lemma ws_not_digit c : is_ws c = true -> is_digit c = false.
Proof.
  unfold is_ws, is_digit. intros H.
  destruct (48 <=? c)%N eqn:H1, (c <=? 57)%N eqn:H2; try done.
  apply N.leb_le in H1, H2.
  repeat (apply orb_true_iff in H as [H|H]);
    repeat (apply andb_true_iff in H as [H H']);
    try apply N.leb_le in H; try apply N.eqb_eq in H; try apply N.leb_le in H';
    lia.
Qed.

Lemma strip_drop_while_ws s :
  strip_non_digits (drop_while is_ws s) = strip_non_digits s.
Proof.
  unfold strip_non_digits. induction s as [|c s IH]; [done|].
  cbn [drop_while]. destruct (is_ws c) eqn:Hc; [|done].
  rewrite filter_cons, IH. apply ws_not_digit in Hc.
  case_decide; [congruence|done].
Qed.

Lemma strip_trim s : strip_non_digits (trim s) = strip_non_digits s.
Proof.
  unfold trim, trimStart.
  rewrite <- (strip_drop_while_ws s).
  generalize (drop_while is_ws s) as u. intros u.
  unfold strip_non_digits at 1. rewrite filter_reverse.
  fold (strip_non_digits (drop_while is_ws (reverse u))).
  rewrite strip_drop_while_ws. unfold strip_non_digits.
  by rewrite filter_reverse, reverse_involutive.
Qed.

Lemma sanitize_text_digits str :
  digits (sanitize_text str) = take 20 (strip_non_digits str).
Proof.
  unfold sanitize_text. destruct str as [|c s]; [done|].
  destruct (strip_non_digits (c :: s)) as [|d ds] eqn:Hd; [done|].
  cbn [digits]. case_decide; [done|].
  symmetry. apply take_ge. lia.
Qed.

Lemma sanitize_text_display str :
  display (sanitize_text str)
  = match digits (sanitize_text str) with
    | [] => []
    | ds => if startsWithPlus str then lit "+" ++ ds else ds
    end.
Proof.
  unfold sanitize_text. destruct str as [|c s]; [done|].
  destruct (strip_non_digits (c :: s)) as [|d ds] eqn:Hd; [done|].
  cbn [digits display]. case_decide; reflexivity.
Qed.

Lemma sanitize_text_digits_digit str :
  Forall (fun c => is_digit c = true) (digits (sanitize_text str))
  /\ (length (digits (sanitize_text str)) <= 20)%nat.
Proof.
  rewrite sanitize_text_digits. split.
  - apply Forall_take. unfold strip_non_digits.
    apply Forall_forall. intros c Hc. by apply list_elem_of_filter in Hc as [? _].
  - rewrite length_take. lia.
Qed.

(** The result of [sanitizePhone] on a value that has a string form. *)
Lemma sanitizePhone_text raw s :
  String raw = Some s -> sanitizePhone raw = Some (sanitize_text (trim s)).
Proof.
  intros Hs. unfold sanitizePhone. destruct (nullish raw) eqn:Hn.
  - destruct raw; try discriminate; injection Hs as <-; vm_compute; reflexivity.
  - by rewrite Hs.
Qed.

Lemma sanitizePhone_Some raw p :
  sanitizePhone raw = Some p -> exists s, p = sanitize_text (trim s).
Proof.
  unfold sanitizePhone. destruct (nullish raw).
  - intros [= <-]. by exists [].
  - destruct (String raw) as [s|]; [|done]. intros [= <-]. by exists s.
Qed.

(** C5, as the code has it, for a raw value that has a string form:
    [digits] is the decimal digits of the input, in order, cut to 20;
    [display] is [digits] with a ['+'] in front when the trimmed input
    starts with ['+'] AND holds a digit, it is [digits] when the input does
    not start with ['+'], and it is empty, like [digits], when the input
    holds no digit; a request that passes the secret gate and whose phone
    comes out empty is answered 400. *)
Theorem sanitizePhone_spec (raw : value) (s : jsstring) :
  String raw = Some s ->
  exists p,
    sanitizePhone raw = Some p
    /\ digits p = take 20 (strip_non_digits s)
    /\ (digits p <> [] ->
         display p = if startsWithPlus (trim s)
                     then lit "+" ++ digits p else digits p)
    /\ (digits p = [] -> display p = [])
    /\ Forall (fun c => is_digit c = true) (digits p)
    /\ (length (digits p) <= 20)%nat
    /\ sanitizePhone (VStr (lit "+1 (555) 012-3456"))
       = Some {| display := lit "+15550123456"; digits := lit "15550123456" |}
    /\ (forall secret r now throws st,
          phone_field r = raw -> secret_rejected secret r = false ->
          display p = [] -> digits p = [] ->
          snd (handle_post secret r now throws st)
          = Json 400 (BError (lit "phone missing"))).
Proof.
  intros Hs. exists (sanitize_text (trim s)).
  pose proof (sanitizePhone_text raw s Hs) as Hp.
  set (p := sanitize_text (trim s)) in *.
  pose proof (sanitize_text_digits (trim s)) as Hd.
  pose proof (sanitize_text_display (trim s)) as Hdisp.
  fold p in Hd, Hdisp. rewrite strip_trim in Hd.
  split; [done|]. split; [done|].
  split; [|split; [|split; [|split; [|split]]]].
  - intros Hne. rewrite Hdisp. by destruct (digits p).
  - intros He. by rewrite Hdisp, He.
  - apply sanitize_text_digits_digit.
  - apply sanitize_text_digits_digit.
  - vm_compute. reflexivity.
  - intros secret r now throws st Hr Hsec H1 H2.
    rewrite post_response. unfold plan_of. rewrite Hsec, Hr, Hp.
    by rewrite H1, H2.
Qed.

Lemma sanitizePhone_spec_witness :
  exists p, sanitizePhone (VStr (lit " +40 (721) 000-111 ")) = Some p
            /\ display p = lit "+40721000111".
Proof.
  destruct (sanitizePhone_spec (VStr (lit " +40 (721) 000-111 "))
              (lit " +40 (721) 000-111 ") eq_refl)
    as (p & Hp & Hd & Hdisp & _).
  exists p. split; [exact Hp|].
  rewrite Hdisp; rewrite Hd; vm_compute; [reflexivity|discriminate].
Defined.

(** The claim C5 as worded fails on an input that starts with ['+'] and
    holds no digit: the display form is empty, not ['+'] followed by the
    (empty) digits. *)
Lemma sanitizePhone_plus_only_counterexample :
  String (VStr (lit "+")) = Some (lit "+")
  /\ startsWithPlus (trim (lit "+")) = true
  /\ sanitizePhone (VStr (lit "+")) = Some {| display := []; digits := [] |}
  /\ ~ (exists p, sanitizePhone (VStr (lit "+")) = Some p
                  /\ display p = lit "+" ++ digits p).
Proof.
  split; [reflexivity|]. split; [reflexivity|]. split; [reflexivity|].
  intros (p & Hp & Hd). vm_compute in Hp. injection Hp as <-.
  vm_compute in Hd. discriminate.
Qed.

Lemma status_of_text_label s : status_of_text s ∈ STATUS_LABELS.
Proof.
  unfold status_of_text. case_bool_decide as Hin; [done|].
  destruct (_ || _); apply (bool_decide_unpack _); vm_compute; exact I.
Qed.

Lemma normalizeStatus_label raw status :
  normalizeStatus raw = Some status -> status ∈ STATUS_LABELS.
Proof.
  unfold normalizeStatus. destruct (negb (truthy raw)).
  - intros [= <-]. apply (bool_decide_unpack _). vm_compute. exact I.
  - destruct (String raw) as [s|]; [|done]. intros [= <-].
    apply status_of_text_label.
Qed.

Lemma falsy_text raw :
  truthy raw = false ->
  exists s, String raw = Some s
            /\ status_of_text (toLowerCase (trim s)) = lit "ringing".
Proof.
  intros Hf.
  assert (Hs : raw = VUndefined \/ raw = VNull \/ raw = VBool false
               \/ raw = VNum NaN \/ raw = VNum Zero \/ raw = VStr []).
  { destruct raw as [| |[]|[| |neg|neg s n]|[|c s]|l|f];
      try discriminate; auto 10. }
  destruct Hs as [-> | [-> | [-> | [-> | [-> | ->]]]]];
    eexists; (split; [reflexivity|]); vm_compute; reflexivity.
Qed.

(** On a value that has a string form, the status is decided by the
    trimmed, lower-cased text: one of the four labels is returned as it is,
    [no_answer] and [noanswer] give [missed], anything else gives
    [ringing]. *)
Lemma normalizeStatus_text raw s :
  String raw = Some s ->
  normalizeStatus raw = Some (status_of_text (toLowerCase (trim s))).
Proof.
  intros Hs. unfold normalizeStatus. destruct (truthy raw) eqn:Ht.
  - cbn [negb]. by rewrite Hs.
  - destruct (falsy_text raw Ht) as (s' & Hs' & Ht').
    cbn [negb]. congruence.
Qed.

Lemma with_status_same v r :
  providedSecret (with_status v r) = providedSecret r
  /\ phone_field (with_status v r) = phone_field r
  /\ body_field b_extension (with_status v r) = body_field b_extension r
  /\ body_field b_source (with_status v r) = body_field b_source r
  /\ body_field b_status (with_status v r) = v.
Proof.
  unfold providedSecret, phone_field, body_field, with_status.
  by destruct r as [h [b|] q].
Qed.

(** C6, at a status the code can receive: for the object
    [{"toString": null}], which is truthy, [String(rawStatus)] throws, so
    [normalizeStatus] returns nothing, and a request that is accepted
    without that status ends in the exception instead of a reply. *)
Theorem unprintable_status_throws :
  truthy unprintable = true
  /\ String unprintable = None
  /\ normalizeStatus unprintable = None
  /\ snd (step (sample_post "0123") initial) = Some (Json 200 BSuccess)
  /\ snd (step crash_post initial) = Some Thrown
  /\ callHistory (fst (step crash_post initial)) = [].
Proof. vm_compute. repeat split. Qed.

(** For every status that has a string form, the claim C6 holds: the status
    is the label, [missed] for the two aliases, [ringing] otherwise and for
    an absent value, always one of the four labels, and the reply to the
    request is the one it gets without a status field. *)
Lemma normalizeStatus_printable (raw : value) (s : jsstring) :
  String raw = Some s ->
  let t := toLowerCase (trim s) in
  (t ∈ STATUS_LABELS -> normalizeStatus raw = Some t)
  /\ (t = lit "no_answer" \/ t = lit "noanswer" ->
       normalizeStatus raw = Some (lit "missed"))
  /\ (t ∉ STATUS_LABELS -> t <> lit "no_answer" -> t <> lit "noanswer" ->
       normalizeStatus raw = Some (lit "ringing"))
  /\ normalizeStatus VUndefined = Some (lit "ringing")
  /\ normalizeStatus (VStr (lit "WEIRD")) = Some (lit "ringing")
  /\ normalizeStatus (VStr (lit "NO_ANSWER")) = Some (lit "missed")
  /\ (forall secret r now throws st,
        snd (handle_post secret (with_status raw r) now throws st)
        = snd (handle_post secret (with_status VUndefined r) now throws st)).
Proof.
  intros Hs t. rewrite (normalizeStatus_text raw s Hs). fold t.
  unfold status_of_text.
  split; [|split; [|split; [|split; [|split; [|split]]]]].
  - intros Hin. by rewrite bool_decide_eq_true_2.
  - intros Hal. rewrite bool_decide_eq_false_2.
    + destruct Hal as [-> | ->]; vm_compute; reflexivity.
    + intros Hin. pose proof (bool_decide_pack _ Hin) as Hb.
      destruct Hal as [E|E]; rewrite E in Hb; vm_compute in Hb; done.
  - intros H1 H2 H3. by rewrite !bool_decide_eq_false_2 by done.
  - vm_compute. reflexivity.
  - vm_compute. reflexivity.
  - vm_compute. reflexivity.
  - intros secret r now throws st. rewrite !post_response.
    unfold plan_of, secret_rejected.
    destruct (with_status_same raw r) as (-> & -> & -> & -> & ->).
    destruct (with_status_same VUndefined r) as (-> & -> & -> & -> & ->).
    rewrite (normalizeStatus_text raw s Hs).
    change (normalizeStatus VUndefined) with (Some (lit "ringing")).
    destruct (match secret with Some (c :: s0) => _ | _ => false end); [done|].
    destruct (sanitizePhone (phone_field r)) as [p|]; [|done].
    destruct (negb _ && negb _); [done|].
    destruct (trimmed_or_null (body_field b_extension r)); [|done].
    by destruct (trimmed_or_null (body_field b_source r)).
Qed.

(** ** Stored entries are well formed *)

Lemma str_or_null_nonempty s : str_or_null s <> Some [].
Proof. by destruct s. Qed.

Lemma accepted_wf ev st e : accepted ev st = Some e -> entry_wf e.
Proof.
  destruct ev as [secret r now throws| | | | |]; try discriminate.
  cbn [accepted]. unfold plan_of.
  destruct (secret_rejected secret r); [discriminate|].
  destruct (sanitizePhone (phone_field r)) as [p|] eqn:Hp; [|discriminate].
  destruct (negb (nonempty (display p)) && negb (nonempty (digits p))) eqn:Hm;
    [discriminate|].
  destruct (trimmed_or_null (body_field b_extension r)) as [ext|]; [|discriminate].
  destruct (trimmed_or_null (body_field b_source r)) as [src|]; [|discriminate].
  destruct (normalizeStatus (body_field b_status r)) as [status|] eqn:Hst;
    [|discriminate].
  intros [= <-].
  apply sanitizePhone_Some in Hp as [s ->].
  pose proof (sanitize_text_display (trim s)) as Hd.
  destruct (sanitize_text_digits_digit (trim s)) as [Hall Hlen].
  assert (Hne : digits (sanitize_text (trim s)) <> []).
  { intros E. rewrite Hd, E in Hm. discriminate. }
  unfold entry_wf, make_entry.
  cbn [Entry.digits Entry.phone Entry.status Entry.callerName].
  split; [done|]. split; [done|]. split; [done|]. split; [|split].
  - rewrite Hd. destruct (digits (sanitize_text (trim s))) as [|d ds]; [done|].
    destruct (startsWithPlus (trim s)); [by right|by left].
  - by apply (normalizeStatus_label (body_field b_status r)).
  - destruct (body_field b_name r); try done. apply str_or_null_nonempty.
Qed.

Lemma step_history_wf ev st :
  (length (callHistory st) <= MAX_HISTORY)%nat ->
  Forall entry_wf (callHistory st) ->
  Forall entry_wf (callHistory (fst (step ev st))).
Proof.
  intros Hlen Hwf. rewrite step_history by done.
  destruct (accepted ev st) as [e|] eqn:Ha; [|done].
  apply Forall_take. constructor; [by eapply accepted_wf|done].
Qed.

Lemma run_history_wf evs st :
  ring_inv st -> Forall entry_wf (callHistory st) ->
  Forall entry_wf (callHistory (run evs st)).
Proof.
  revert st. induction evs as [|ev evs IH]; intros st Hr Hwf; [done|].
  rewrite run_cons. apply IH; [by apply step_ring_inv|].
  apply step_history_wf; [by destruct Hr|done].
Qed.

Lemma reachable_history_wf st :
  reachable st -> Forall entry_wf (callHistory st).
Proof.
  intros [evs ->]. apply run_history_wf; [apply initial_ring_inv|].
  constructor.
Qed.

(** ** Claims on rejected requests and on the history read *)

Lemma phone_missing_plan secret r :
  secret_rejected secret r = false -> phone_missing r = true ->
  plan_of secret r = Plan400.
Proof.
  unfold phone_missing, plan_of. intros -> Hm.
  destruct (sanitizePhone (phone_field r)) as [p|]; [|done]. by rewrite Hm.
Qed.

(** C7: a request that fails the secret gate is answered 401 and the state
    is the very same; a request that passes it and whose phone is missing
    (no phone, caller or number field, an empty one, or one with no digit)
    is answered 400 with the ring, [lastCall], the counter and the listeners
    as they were; whatever the request, a JSON reply other than the 200
    leaves ring, [lastCall] and counter as they were. *)
Theorem rejected_requests_change_nothing (secret : option jsstring)
    (r : request) (now : jsstring) (throws : nat -> bool) (st : state) :
  let out := handle_post secret r now throws st in
  (secret_rejected secret r = true ->
     out = (st, Json 401 (BError (lit "invalid secret"))))
  /\ (secret_rejected secret r = false -> phone_missing r = true ->
       snd out = Json 400 (BError (lit "phone missing"))
       /\ callHistory (fst out) = callHistory st
       /\ lastCall (fst out) = lastCall st
       /\ sequence (fst out) = sequence st
       /\ listeners (fst out) = listeners st)
  /\ (phone_field r = VStr [] -> phone_missing r = true)
  /\ (nullish (body_field b_phone r) = true ->
       nullish (body_field b_caller r) = true ->
       nullish (body_field b_number r) = true -> phone_field r = VStr [])
  /\ (forall s, secret = Some s -> s <> [] -> providedSecret r <> VStr s ->
        secret_rejected secret r = true)
  /\ (forall code body, snd out = Json code body -> code <> 200 ->
        core (fst out) = core st).
Proof.
  intros out. subst out. rewrite handle_post_plan. cbv zeta.
  split; [|split; [|split; [|split; [|split]]]].
  - intros Hs. unfold plan_of. by rewrite Hs.
  - intros Hs Hm. rewrite (phone_missing_plan secret r Hs Hm). cbn [fst snd].
    destruct (core_eq _ _ (warn_core secret st)) as (? & ? & ?).
    destruct (hub_eq _ _ (warn_hub secret st)) as (? & _).
    done.
  - intros Hp. unfold phone_missing. by rewrite Hp.
  - intros H1 H2 H3. unfold phone_field, js_coalesce. by rewrite H1, H2, H3.
  - intros s -> Hne Hp. unfold secret_rejected.
    destruct s as [|c s]; [done|].
    destruct (truthy (providedSecret r)); [|done]. cbn [negb orb].
    unfold strict_eq_string.
    destruct (providedSecret r) as [| | | |s'| |]; try done.
    rewrite bool_decide_eq_false_2; [done|]. congruence.
  - intros code body Hr Hne.
    destruct (plan_of secret r); cbn [fst snd] in *; try done.
    + apply warn_core.
    + injection Hr as <- _. done.
Qed.

Lemma rejected_requests_change_nothing_witness :
  let st := run sample_run initial in
  handle_post (Some (lit "s3cret")) (sample_request (VStr (lit "0123")))
    (lit "2024-01-01T00:00:01.000Z") (fun _ => false) st
  = (st, Json 401 (BError (lit "invalid secret")))
  /\ callHistory (fst (handle_post None (sample_request (VStr []))
                        (lit "2024-01-01T00:00:01.000Z") (fun _ => false) st))
     = callHistory st.
Proof.
  intros st. split.
  - apply (rejected_requests_change_nothing (Some (lit "s3cret"))).
    vm_compute. reflexivity.
  - apply (rejected_requests_change_nothing None (sample_request (VStr [])));
      vm_compute; reflexivity.
Defined.

Lemma limit_of_text_range s : 1 <= limit_of_text s <= 500.
Proof. unfold limit_of_text, MAX_HISTORY. lia. Qed.

Lemma handle_log_authorized limit n db st :
  log_limit limit = Some n ->
  let slice := take (Z.to_nat n) (callHistory st) in
  let people := fst (load_people db (slice_digits slice)) in
  snd (handle_log true limit db st)
  = Json 200 (BEntries (map (enrich people) slice)).
Proof.
  intros Hn slice people. unfold handle_log. cbn [negb]. rewrite Hn.
  cbv zeta. unfold slice0. fold slice. subst people.
  by destruct (load_people db (slice_digits slice)).
Qed.

(** C8, as the code has it, for a limit parameter that has a string form:
    the limit is 100 when the parameter is absent, is not a number or is 0,
    and otherwise the parameter clamped to [1, 500]; an authorized read of
    a reachable state returns the first min(limit, length) entries of the
    ring in its (newest-first) order, each with the id, phone, digits,
    time, extension, source, status and note that are stored; in each, a
    stored caller name is returned as it is, and so is a stored person id
    that is truthy; when the stored one is [null] the result of the
    directory lookup for the entry's digits is returned, or [null] when
    that one is missing or falsy. *)
Theorem history_read_spec (limit : value) (s : jsstring)
    (db : list jsstring -> db_result) (st : state) :
  reachable st ->
  String limit = Some s ->
  let n := limit_of_text s in
  let slice := take (Z.to_nat n) (callHistory st) in
  let people := fst (load_people db (slice_digits slice)) in
  log_limit limit = Some n
  /\ 1 <= n <= 500
  /\ n = match parseInt10 s with
         | None => 100
         | Some k => if k =? 0 then 100 else Z.max 1 (Z.min k 500)
         end
  /\ log_limit VUndefined = Some 100
  /\ exists entries,
       snd (handle_log true limit db st) = Json 200 (BEntries entries)
       /\ length entries = Nat.min (Z.to_nat n) (length (callHistory st))
       /\ map le_id entries = take (Z.to_nat n) (map Entry.id (callHistory st))
       /\ forall i e le, slice !! i = Some e -> entries !! i = Some le ->
            let found := people !! Entry.digits e in
            (le_id le = Entry.id e /\ le_phone le = Entry.phone e
             /\ le_digits le = Entry.digits e
             /\ le_received_at le = Entry.received_at e
             /\ le_extension le = Entry.extension e
             /\ le_source le = Entry.source e
             /\ le_status le = Entry.status e /\ le_note le = Entry.note e)
            /\ (forall name, Entry.callerName e = Some name ->
               caller_name le = VStr name)
            /\ (Entry.callerName e = None ->
                 caller_name le = js_or (person_name found) VNull)
            /\ (truthy (Entry.personId e) = true ->
                 person_id le = Entry.personId e)
            /\ (Entry.personId e = VNull ->
                 person_id le = js_or (person_ident found) VNull).
Proof.
  intros Hreach Hs n slice people.
  assert (Hn : log_limit limit = Some n) by (unfold log_limit; by rewrite Hs).
  split; [done|]. split; [apply limit_of_text_range|]. split; [|split].
  - unfold n, limit_of_text, MAX_HISTORY.
    destruct (parseInt10 s) as [k|]; [|done]. by destruct (k =? 0).
  - vm_compute. reflexivity.
  - exists (map (enrich people) slice).
    split; [by apply handle_log_authorized|]. split; [|split].
    + unfold slice. by rewrite length_map, length_take.
    + unfold slice. rewrite <- (fmap_take Entry.id).
      change (map le_id (map (enrich people) ?l))
        with (le_id <$> (enrich people <$> l)).
      rewrite <- list_fmap_compose. done.
    + intros i e le He Hle found.
      change (map (enrich people) slice) with (enrich people <$> slice) in Hle.
      rewrite list_lookup_fmap, He in Hle. injection Hle as <-.
      assert (Hwf : entry_wf e).
      { pose proof (reachable_history_wf st Hreach) as Hall.
        apply (Forall_take _ (Z.to_nat n)) in Hall.
        rewrite Forall_forall in Hall. apply Hall.
        apply list_elem_of_lookup. eauto. }
      destruct Hwf as (Hd & _ & _ & _ & _ & Hname).
      assert (Hp : lookup_person people e = found).
      { unfold lookup_person. by destruct (Entry.digits e). }
      split; [by repeat split|].
      unfold enrich. cbn [caller_name person_id]. rewrite Hp.
      fold (person_name found). fold (person_ident found).
      split; [|split; [|split]].
      * intros name Hname'. rewrite Hname' in *. by destruct name.
      * intros ->. done.
      * intros Ht. unfold js_or at 2. rewrite Ht. unfold js_or. by rewrite Ht.
      * intros ->. done.
Qed.

Lemma history_read_spec_witness :
  exists le,
    (match snd (handle_log true (VStr (lit "1")) (fun _ => DbRows [])
                   (run sample_run initial)) with
     | Json _ (BEntries entries) => entries
     | _ => []
     end) !! 0%nat = Some le
    /\ caller_name le = VNull.
Proof.
  assert (Hreach : reachable (run sample_run initial)) by (by eexists).
  destruct (history_read_spec (VStr (lit "1")) (lit "1") (fun _ => DbRows [])
              (run sample_run initial) Hreach eq_refl)
    as (Hn & _ & _ & _ & entries & Hr & _ & _ & He).
  rewrite Hr.
  assert (Hl : exists le, entries !! 0%nat = Some le).
  { rewrite (handle_log_authorized _ _ _ _ Hn) in Hr. injection Hr as <-.
    vm_compute. eauto. }
  destruct Hl as [le Hle]. exists le. split; [exact Hle|].
  destruct (He 0%nat (sample_entry_plus 2) le) as (_ & _ & H & _).
  - vm_compute. reflexivity.
  - exact Hle.
  - rewrite H; [|reflexivity]. vm_compute. reflexivity.
Defined.

(** The claim C8 as worded fails for the requested limit 0: clamped to
    [1, 500] it would be 1, and the read would return one entry; the code
    takes 0 for an absent limit and returns up to 100 entries. *)
Lemma log_limit_zero_counterexample :
  String (VStr (lit "0")) = Some (lit "0")
  /\ parseInt10 (lit "0") = Some 0
  /\ clamp_limit (parseInt10 (lit "0")) = 1
  /\ log_limit (VStr (lit "0")) = Some 100
  /\ log_limit (VStr (lit "0")) <> Some (clamp_limit (parseInt10 (lit "0")))
  /\ length (callHistory (run sample_run initial)) = 2%nat
  /\ length (reply_ids (snd (handle_log true (VStr (lit "0"))
                               (fun _ => DbRejects)
                               (run sample_run initial)))) = 2%nat.
Proof. vm_compute. repeat split. discriminate. Qed.

Lemma load_people_rejects db ds :
  db ds = DbRejects -> fst (load_people db ds) = ∅.
Proof. intros H. unfold load_people. destruct ds; [done|]. by rewrite H. Qed.

Lemma load_people_no_rows ds : fst (load_people (fun _ => DbRows []) ds) = ∅.
Proof. by destruct ds. Qed.

Lemma handle_log_frame user limit db st :
  hub (fst (handle_log user limit db st)) = hub st
  /\ written (fst (handle_log user limit db st)) = written st.
Proof.
  unfold handle_log. destruct user; [|done]. cbn [negb].
  destruct (log_limit limit); [|done]. cbv zeta.
  by destruct (load_people _ _) as [m [|]].
Qed.

(** C9: when the directory query made by a history read of a reachable
    state is rejected, the read is answered as it is when the directory has
    no row at all: with a 200 and the same entries whenever the limit
    parameter has a string form, each caller name being the one stored at
    ingestion, or [null]; ring, [lastCall], counter, listeners, timers and
    what the streams received are as they were. *)
Theorem lookup_failure_degrades (limit : value)
    (db : list jsstring -> db_result) (st : state) :
  reachable st ->
  (forall ds, db ds = DbRejects) ->
  let out := handle_log true limit db st in
  snd out = snd (handle_log true limit (fun _ => DbRows []) st)
  /\ (forall n, log_limit limit = Some n ->
        let slice := take (Z.to_nat n) (callHistory st) in
        snd out = Json 200 (BEntries (map (enrich ∅) slice))
        /\ forall e, e ∈ slice ->
             caller_name (enrich ∅ e) = of_nullable (Entry.callerName e)
             /\ person_id (enrich ∅ e) = js_or (Entry.personId e) VNull)
  /\ core (fst out) = core st
  /\ hub (fst out) = hub st
  /\ written (fst out) = written st.
Proof.
  intros Hreach Hdb out. subst out.
  split; [|split; [|split]].
  - destruct (log_limit limit) as [n|] eqn:Hn.
    + rewrite !(handle_log_authorized _ _ _ _ Hn).
      by rewrite (load_people_rejects db _ (Hdb _)), load_people_no_rows.
    + unfold handle_log. cbn [negb]. by rewrite Hn.
  - intros n Hn slice. split.
    + rewrite (handle_log_authorized _ _ _ _ Hn). fold slice.
      by rewrite (load_people_rejects db _ (Hdb _)).
    + intros e He.
      assert (Hwf : entry_wf e).
      { pose proof (reachable_history_wf st Hreach) as Hall.
        apply (Forall_take _ (Z.to_nat n)) in Hall.
        rewrite Forall_forall in Hall. by apply Hall. }
      destruct Hwf as (_ & _ & _ & _ & _ & Hname).
      unfold enrich, lookup_person. cbn [caller_name person_id].
      rewrite lookup_empty. split.
      * destruct (nonempty (Entry.digits e));
          by destruct (Entry.callerName e) as [[|c s]|].
      * destruct (nonempty (Entry.digits e)); unfold js_or;
          destruct (truthy (Entry.personId e)) eqn:E; cbn [truthy];
          rewrite ?E; reflexivity.
  - apply handle_log_core.
  - apply handle_log_frame.
Qed.

Lemma lookup_failure_degrades_witness :
  snd (handle_log true VUndefined (fun _ => DbRejects) (run sample_run initial))
  = snd (handle_log true VUndefined (fun _ => DbRows [])
           (run sample_run initial))
  /\ reply_ids (snd (handle_log true VUndefined (fun _ => DbRejects)
                       (run sample_run initial)))
     = [lit "2"; lit "1"].
Proof.
  assert (Hreach : reachable (run sample_run initial)) by (by eexists).
  destruct (lookup_failure_degrades VUndefined (fun _ => DbRejects)
              (run sample_run initial) Hreach (fun _ => eq_refl))
    as (H1 & H2 & _).
  split; [exact H1|].
  destruct (H2 100 eq_refl) as [-> _]. vm_compute. reflexivity.
Defined.

(** ** The process and the ring, and a scenario *)

Lemma run_history_store_all evs :
  callHistory (run evs initial)
  = callHistory (store_all (ingested evs initial) initial).
Proof.
  rewrite run_history, store_all_history by (cbn; lia). reflexivity.
Qed.

Example id_of_examples :
  id_of 1 = lit "1" /\ id_of 10 = lit "10" /\ id_of 500 = lit "500".
Proof. vm_compute. repeat split. Qed.

Example five_calls_read_three :
  reply_ids (snd (handle_log true (VStr (lit "3")) (fun _ => DbRows [])
                    (run five_calls initial)))
  = [lit "5"; lit "4"; lit "3"]
  /\ map Entry.status (callHistory (run five_calls initial))
     = map lit ["ringing"; "rejected"; "missed"; "answered"; "ringing"]%string.
Proof. vm_compute. split; reflexivity. Qed.

(** * Further properties of the router *)

(** ** Canonical forms of the normalisers *)

Lemma drop_while_none (p : N -> bool) (s : jsstring) :
  Forall (fun c => p c = false) s -> drop_while p s = s.
Proof. intros H. destruct H as [|c s Hc _]; [done|]. cbn. by rewrite Hc. Qed.

Lemma trim_none (s : jsstring) :
  Forall (fun c => is_ws c = false) s -> trim s = s.
Proof.
  intros H. unfold trim, trimStart. rewrite (drop_while_none _ s H).
  rewrite drop_while_none; [apply reverse_involutive|].
  by apply Forall_reverse.
Qed.

Lemma digit_not_ws c : is_digit c = true -> is_ws c = false.
Proof.
  intros Hd. destruct (is_ws c) eqn:Hw; [|done].
  apply ws_not_digit in Hw. congruence.
Qed.

Lemma strip_digits_id (ds : jsstring) :
  Forall (fun c => is_digit c = true) ds -> strip_non_digits ds = ds.
Proof.
  unfold strip_non_digits. induction 1 as [|c ds Hc _ IH]; [done|].
  rewrite filter_cons, IH. by case_decide.
Qed.

Lemma sanitize_text_canonical (str : jsstring) :
  let p := sanitize_text str in
  trim (display p) = display p /\ sanitize_text (display p) = p.
Proof.
  intros p. pose proof (sanitize_text_display str) as Hd.
  destruct (sanitize_text_digits_digit str) as [Hall Hlen]. fold p in Hd, Hall, Hlen.
  destruct p as [disp ds]. cbn [display digits] in *.
  destruct ds as [|d ds]; [by subst disp|].
  assert (Hws : Forall (fun c => is_ws c = false) (d :: ds)).
  { eapply Forall_impl; [exact Hall|]. intros c. apply digit_not_ws. }
  assert (Hd0 : is_digit d = true) by (by inversion Hall).
  assert (Hnot : (d =? 43)%N = false).
  { apply N.eqb_neq. intros ->. vm_compute in Hd0. discriminate. }
  destruct (startsWithPlus str); subst disp.
  - split.
    + apply trim_none. by constructor.
    + unfold sanitize_text. cbn [app lit map list_ascii_of_string].
      change (N_of_ascii "+") with 43%N.
      assert (Hs : strip_non_digits (43%N :: d :: ds) = d :: ds).
      { unfold strip_non_digits. rewrite filter_cons.
        case_decide as Hp; [vm_compute in Hp; discriminate|].
        by apply strip_digits_id. }
      rewrite Hs. cbn [startsWithPlus]. rewrite N.eqb_refl.
      case_decide; [lia|done].
  - split; [by apply trim_none|].
    unfold sanitize_text. rewrite (strip_digits_id _ Hall).
    cbn [startsWithPlus]. rewrite Hnot. case_decide; [lia|done].
Qed.

(** X1: the display form is canonical: sanitizing the display form of any
    sanitized phone gives the same pair back, and the display form holds no
    white space to trim. *)
Theorem sanitizePhone_canonical (raw : value) (p : phone_pair) :
  sanitizePhone raw = Some p ->
  sanitizePhone (VStr (display p)) = Some p
  /\ trim (display p) = display p.
Proof.
  intros Hp. apply sanitizePhone_Some in Hp as [s ->].
  destruct (sanitize_text_canonical (trim s)) as [Ht Hc].
  split; [|done].
  rewrite (sanitizePhone_text (VStr (display (sanitize_text (trim s)))) _ eq_refl).
  by rewrite Ht, Hc.
Qed.

Lemma sanitizePhone_canonical_witness :
  sanitizePhone (VStr (lit "+40721000111"))
  = Some {| display := lit "+40721000111"; digits := lit "40721000111" |}.
Proof.
  apply (sanitizePhone_canonical (VStr (lit " +40 (721) 000-111 "))
           {| display := lit "+40721000111"; digits := lit "40721000111" |}).
  vm_compute. reflexivity.
Defined.

(** X2: a normalized status is a fixed point: normalizing the status that
    [normalizeStatus] returned for any value returns it again. *)
Theorem normalizeStatus_canonical (raw : value) (status : jsstring) :
  normalizeStatus raw = Some status ->
  normalizeStatus (VStr status) = Some status.
Proof.
  intros H. apply normalizeStatus_label in H.
  unfold STATUS_LABELS in H.
  repeat (apply elem_of_cons in H as [->|H]; [vm_compute; reflexivity|]).
  by apply elem_of_nil in H.
Qed.

Lemma normalizeStatus_canonical_witness :
  normalizeStatus (VStr (lit "missed")) = Some (lit "missed").
Proof.
  apply (normalizeStatus_canonical (VStr (lit " No_Answer "))).
  vm_compute. reflexivity.
Defined.

(** ** The secret gate and the phone field *)

(** X3: with a secret configured, a request passes the gate exactly when
    the first truthy one of its header, body and query secrets is that very
    string: a non-empty header secret hides the other two, so a wrong
    header is rejected whatever the body and the query carry; with no
    secret, or an empty one, no request is rejected. *)
Theorem secret_gate_precedence (s : jsstring) (r : request) :
  s <> [] ->
  (secret_rejected (Some s) r = false <-> providedSecret r = VStr s)
  /\ (forall h, header_secret r = Some h -> h <> [] ->
        providedSecret r = VStr h
        /\ (h <> s -> secret_rejected (Some s) r = true))
  /\ (header_secret r = None \/ header_secret r = Some [] ->
       providedSecret r
       = js_or (body_field b_secret r) (query_secret r))
  /\ secret_rejected None r = false
  /\ secret_rejected (Some []) r = false.
Proof.
  intros Hs.
  assert (Hiff : secret_rejected (Some s) r = false <-> providedSecret r = VStr s).
  { unfold secret_rejected. destruct s as [|c s]; [done|].
    unfold strict_eq_string. split.
    - intros H. apply orb_false_iff in H as [_ H].
      apply negb_false_iff in H.
      destruct (providedSecret r); try discriminate.
      apply bool_decide_eq_true_1 in H. by subst.
    - intros ->. cbn [truthy negb orb]. by rewrite bool_decide_eq_true_2. }
  split; [done|]. split; [|split; [|done]].
  - intros h Hh Hne.
    assert (Hp : providedSecret r = VStr h).
    { unfold providedSecret. rewrite Hh. unfold js_or. by destruct h. }
    split; [done|]. intros Hhs.
    apply not_false_iff_true. intros E. apply Hiff in E. congruence.
  - intros [Hh|Hh]; unfold providedSecret; by rewrite Hh.
Qed.

Lemma secret_gate_precedence_witness :
  secret_rejected (Some (lit "s3cret"))
    {| header_secret := Some (lit "wrong");
       req_body := Some {| b_phone := VStr (lit "0123"); b_caller := VUndefined;
                           b_number := VUndefined; b_extension := VUndefined;
                           b_source := VUndefined; b_status := VUndefined;
                           b_note := VUndefined; b_name := VUndefined;
                           b_person_id := VUndefined;
                           b_secret := VStr (lit "s3cret") |};
       query_secret := VStr (lit "s3cret") |} = true.
Proof.
  eapply (secret_gate_precedence (lit "s3cret")); [discriminate|reflexivity|..];
    vm_compute; discriminate.
Defined.

(** X4: the phone is the [phone] field unless it is [null] or [undefined],
    then the [caller] field, then the [number] field; a [phone] that is the
    empty string is not replaced by the other two, and the request, once
    past the secret gate, is answered 400 whatever they hold. *)
Theorem phone_field_precedence (r : request) :
  (nullish (body_field b_phone r) = false ->
     phone_field r = body_field b_phone r)
  /\ (nullish (body_field b_phone r) = true ->
       nullish (body_field b_caller r) = false ->
       phone_field r = body_field b_caller r)
  /\ (nullish (body_field b_phone r) = true ->
       nullish (body_field b_caller r) = true ->
       nullish (body_field b_number r) = false ->
       phone_field r = body_field b_number r)
  /\ (forall secret now throws st,
        secret_rejected secret r = false ->
        body_field b_phone r = VStr [] ->
        handle_post secret r now throws st
        = (warn_unless_secret secret st,
           Json 400 (BError (lit "phone missing")))).
Proof.
  unfold phone_field, js_coalesce.
  split; [by intros ->|]. split; [by intros -> ->|].
  split; [by intros -> -> ->|].
  intros secret now throws st Hs Hp. rewrite handle_post_plan. cbv zeta.
  unfold plan_of, phone_field, js_coalesce. by rewrite Hs, Hp.
Qed.

Lemma phone_field_precedence_witness :
  snd (handle_post None
         {| header_secret := None;
            req_body := Some {| b_phone := VStr []; b_caller := VStr (lit "0123");
                                b_number := VStr (lit "0456");
                                b_extension := VUndefined; b_source := VUndefined;
                                b_status := VUndefined; b_note := VUndefined;
                                b_name := VUndefined; b_person_id := VUndefined;
                                b_secret := VUndefined |};
            query_secret := VUndefined |}
         (lit "2024-01-01T00:00:00.000Z") (fun _ => false) initial)
  = Json 400 (BError (lit "phone missing")).
Proof.
  erewrite (proj2 (proj2 (proj2 (phone_field_precedence _))));
    reflexivity.
Defined.

(** ** Decimal numerals: printing and parsing *)

Lemma lit_cons (a : ascii) (s : string) :
  lit (String.String a s) = N_of_ascii a :: lit s.
Proof. reflexivity. Qed.

Lemma digits_fold (d : Decimal.uint) (acc : Z) :
  fold_left (fun a c => 10 * a + (Z.of_N c - 48))
    (lit (NilEmpty.string_of_uint d)) acc
  = uint_value d acc.
Proof.
  revert acc. induction d as [|d IH|d IH|d IH|d IH|d IH|d IH|d IH|d IH|d IH|d IH];
    intros acc; [done|..];
    cbn [NilEmpty.string_of_uint uint_value]; rewrite lit_cons;
    cbn [fold_left]; rewrite <- IH; f_equal;
    match goal with
    | |- context [N_of_ascii ?a] =>
        let k := eval vm_compute in (Z.of_N (N_of_ascii a)) in
        change (Z.of_N (N_of_ascii a)) with k
    end; lia.
Qed.

Lemma uint_value_pos (d : Decimal.uint) (acc : positive) :
  uint_value d (Zpos acc) = Zpos (Pos.of_uint_acc d acc).
Proof.
  revert acc. induction d as [|d IH|d IH|d IH|d IH|d IH|d IH|d IH|d IH|d IH|d IH];
    intros acc; [done|..]; cbn [uint_value Pos.of_uint_acc];
    rewrite <- IH; f_equal; lia.
Qed.

Lemma uint_value_0 (d : Decimal.uint) :
  uint_value d 0 = Z.of_N (Pos.of_uint d).
Proof.
  induction d as [|d IH|d IH|d IH|d IH|d IH|d IH|d IH|d IH|d IH|d IH];
    [done|exact IH|..]; cbn [uint_value Pos.of_uint];
    change (10 * 0 + ?k) with k; apply uint_value_pos.
Qed.

Lemma numeral_digits (d : Decimal.uint) :
  Forall (fun c => is_digit c = true) (lit (NilEmpty.string_of_uint d)).
Proof.
  induction d; cbn [NilEmpty.string_of_uint lit list_ascii_of_string map];
    constructor; done.
Qed.

Lemma take_while_all (p : N -> bool) (s : jsstring) :
  Forall (fun c => p c = true) s -> take_while p s = s.
Proof. induction 1 as [|c s Hc _ IH]; [done|]. cbn. by rewrite Hc, IH. Qed.

Lemma parseInt10_digits (c : N) (ds : jsstring) :
  Forall (fun c => is_digit c = true) (c :: ds) ->
  parseInt10 (c :: ds) = Some (digits_value (c :: ds))
  /\ parseInt10 (45%N :: c :: ds) = Some (- digits_value (c :: ds)).
Proof.
  intros Hall. assert (Hc : is_digit c = true) by (by inversion Hall).
  assert (Hw : is_ws c = false) by (by apply digit_not_ws).
  assert (H45 : (c =? 45)%N = false).
  { apply N.eqb_neq. intros ->. vm_compute in Hc. discriminate. }
  assert (H43 : (c =? 43)%N = false).
  { apply N.eqb_neq. intros ->. vm_compute in Hc. discriminate. }
  pose proof (take_while_all is_digit (c :: ds) Hall) as E.
  unfold parseInt10, trimStart. split.
  - cbn [drop_while]. rewrite Hw, H45, H43. cbv beta iota zeta.
    rewrite E. reflexivity.
  - change (drop_while is_ws (45%N :: c :: ds)) with (45%N :: c :: ds).
    cbv beta iota zeta. change (45 =? 45)%N with true. cbv beta iota zeta.
    rewrite E. reflexivity.
Qed.

Lemma numeral_nonempty (p : positive) :
  exists c ds, lit (NilEmpty.string_of_uint (Pos.to_uint p)) = c :: ds.
Proof.
  pose proof (DecimalPos.Unsigned.to_uint_nonnil p) as Hn.
  destruct (Pos.to_uint p); [done|..];
    cbn [NilEmpty.string_of_uint lit list_ascii_of_string map]; eauto.
Qed.

Lemma numeral_value (p : positive) :
  digits_value (lit (NilEmpty.string_of_uint (Pos.to_uint p))) = Zpos p.
Proof.
  unfold digits_value. rewrite digits_fold, uint_value_0.
  by rewrite DecimalPos.Unsigned.of_to.
Qed.

Lemma decimal_pos (p : positive) :
  decimal (Zpos p) = lit (NilEmpty.string_of_uint (Pos.to_uint p))
  /\ decimal (Zneg p)
     = 45%N :: lit (NilEmpty.string_of_uint (Pos.to_uint p)).
Proof.
  pose proof (DecimalPos.Unsigned.to_uint_nonnil p) as Hn.
  unfold decimal. cbn [Z.to_int NilZero.string_of_int].
  unfold NilZero.string_of_uint. by destruct (Pos.to_uint p).
Qed.

Lemma parseInt10_number (z : Z) : parseInt10 (decimal z) = Some z.
Proof.
  destruct z as [|p|p]; [vm_compute; reflexivity|..];
    destruct (decimal_pos p) as [Hp Hn];
    destruct (numeral_nonempty p) as (c & ds & Hcd);
    pose proof (numeral_digits (Pos.to_uint p)) as Hall;
    pose proof (numeral_value p) as Hv;
    rewrite Hcd in Hall, Hv;
    destruct (parseInt10_digits c ds Hall) as [H1 H2].
  - rewrite Hp, Hcd, H1. by rewrite Hv.
  - rewrite Hn, Hcd, H2. by rewrite Hv.
Qed.

(** X5: the decimal text of an integer parses back to the integer as long
    as the integer is within the exact range of numbers (magnitude at most
    2^53); a history read whose limit is the decimal text of any integer
    [n] uses 100 for 0, 1 for a negative [n], [n] from 1 to 500 and 500
    above; and the id of an entry parses back to its number. *)
Theorem limit_of_decimal (n : Z) :
  (Z.abs n <= 2 ^ 53 -> parseInt10 (decimal n) = Some n)
  /\ log_limit (VStr (decimal n))
     = Some (if n =? 0 then 100 else Z.max 1 (Z.min n 500))
  /\ (forall k : nat, Z.of_nat k <= 2 ^ 53 ->
        parseInt10 (id_of k) = Some (Z.of_nat k)).
Proof.
  split; [intros _; apply parseInt10_number|]. split.
  - unfold log_limit. cbn [String mbind option_bind].
    unfold limit_of_text. rewrite parseInt10_number.
    unfold MAX_HISTORY. by destruct (n =? 0).
  - intros k _. apply parseInt10_number.
Qed.

Lemma limit_of_decimal_witness :
  parseInt10 (decimal 9007199254740992) = Some 9007199254740992
  /\ parseInt10 (id_of 42) = Some 42.
Proof.
  destruct (limit_of_decimal 9007199254740992) as (Hn & _ & Hk).
  split; [apply Hn; vm_compute; discriminate|].
  apply (Hk 42%nat). vm_compute. discriminate.
Defined.

(** ** Ids and stored entries *)

Lemma step_sequence_mono ev st :
  (sequence st <= sequence (fst (step ev st)))%nat.
Proof.
  pose proof (step_core ev st) as Hc.
  destruct (accepted ev st); injection Hc as _ _ ->;
    [|destruct (throws_late ev)]; lia.
Qed.

Lemma run_sequence_mono evs st : (sequence st <= sequence (run evs st))%nat.
Proof.
  revert st. induction evs as [|ev evs IH]; intros st; [done|].
  rewrite run_cons. pose proof (step_sequence_mono ev st).
  specialize (IH (fst (step ev st))). lia.
Qed.

Lemma ingested_numbers evs st :
  exists ns : list nat,
    map Entry.id (ingested evs st) = map id_of ns
    /\ StronglySorted lt ns
    /\ Forall (fun n => (sequence st < n <= sequence (run evs st))%nat) ns.
Proof.
  revert st. induction evs as [|ev evs IH]; intros st.
  - exists []. split; [done|]. split; constructor.
  - rewrite ingested_cons, run_cons.
    destruct (IH (fst (step ev st))) as (ns & Hids & Hsort & Hall).
    pose proof (step_sequence_mono ev st) as Hmono.
    pose proof (step_core ev st) as Hc.
    destruct (accepted ev st) as [e|] eqn:Ha.
    + injection Hc as _ _ Hq. exists (S (sequence st) :: ns).
      split; [|split].
      * cbn [map]. rewrite Hids. f_equal. by apply (accepted_id ev st).
      * constructor; [done|]. eapply Forall_impl; [exact Hall|].
        intros n Hn. cbn in Hn. lia.
      * constructor.
        -- pose proof (run_sequence_mono evs (fst (step ev st))). lia.
        -- eapply Forall_impl; [exact Hall|]. intros n Hn. cbn in Hn. lia.
    + exists ns. split; [done|]. split; [done|].
      eapply Forall_impl; [exact Hall|]. intros n Hn. cbn in Hn. lia.
Qed.

Lemma sorted_NoDup (ns : list nat) : StronglySorted lt ns -> NoDup ns.
Proof.
  induction 1 as [|n ns _ IH Hall]; constructor; [|done].
  intros Hin. rewrite Forall_forall in Hall. specialize (Hall n Hin). lia.
Qed.

Lemma id_of_inj m n : id_of m = id_of n -> m = n.
Proof. intros H. apply decimal_inj in H. lia. Qed.

(** X6: whatever the requests, ids are never reused and never go back: the
    ids of the stored entries, oldest first, are the decimal numerals of
    strictly increasing numbers between 1 and the counter, so the ids of
    the entries in the ring are pairwise distinct. *)
Theorem stored_ids_increasing (evs : list event) :
  let st := run evs initial in
  exists ns : list nat,
    map Entry.id (ingested evs initial) = map id_of ns
    /\ map (fun e => parseInt10 (Entry.id e)) (ingested evs initial)
       = map (fun n => Some (Z.of_nat n)) ns
    /\ StronglySorted lt ns
    /\ Forall (fun n => (1 <= n <= sequence st)%nat) ns
    /\ NoDup (map Entry.id (ingested evs initial))
    /\ NoDup (map Entry.id (callHistory st)).
Proof.
  intros st. destruct (ingested_numbers evs initial) as (ns & Hids & Hsort & Hall).
  assert (Hnd : NoDup (map Entry.id (ingested evs initial))).
  { rewrite Hids.
    assert (Hinj : Inj eq eq id_of) by (intros m n; apply id_of_inj).
    apply (NoDup_fmap_2 id_of). by apply sorted_NoDup. }
  exists ns. split; [done|]. split; [|split; [done|split; [|split; [done|]]]].
  - transitivity (map (fun s => parseInt10 s) (map Entry.id (ingested evs initial))).
    { by rewrite map_map. }
    rewrite Hids, map_map. apply map_ext. intros n. apply parseInt10_number.
  - eapply Forall_impl; [exact Hall|]. intros n Hn. cbn in Hn. fold st in Hn. lia.
  - unfold st. rewrite run_history by (cbn; lia).
    cbn [callHistory initial]. rewrite app_nil_r.
    eapply sublist_NoDup; [|apply (fmap_sublist Entry.id), sublist_take].
    change (map Entry.id (reverse ?l)) with (Entry.id <$> reverse l).
    rewrite fmap_reverse, reverse_Permutation. exact Hnd.
Qed.

Lemma drop_while_head (s : jsstring) : no_ws_head (drop_while is_ws s).
Proof.
  induction s as [|c s IH]; [done|]. cbn [drop_while].
  destruct (is_ws c) eqn:Hc; [done|]. exact Hc.
Qed.

Lemma drop_while_fix (s : jsstring) :
  no_ws_head s -> drop_while is_ws s = s.
Proof. destruct s as [|c s]; [done|]. cbn. by intros ->. Qed.

Lemma drop_while_suffix (s : jsstring) :
  exists pre, s = pre ++ drop_while is_ws s.
Proof.
  induction s as [|c s [pre IH]]; [by exists []|]. cbn [drop_while].
  destruct (is_ws c); [|by exists []].
  exists (c :: pre). cbn. by rewrite <- IH.
Qed.

Lemma trim_heads (s : jsstring) :
  no_ws_head (trim s) /\ no_ws_head (reverse (trim s)).
Proof.
  unfold trim, trimStart.
  set (u := drop_while is_ws s).
  assert (Hu : no_ws_head u) by apply drop_while_head.
  set (v := drop_while is_ws (reverse u)).
  assert (Hv : no_ws_head v) by apply drop_while_head.
  split; [|by rewrite reverse_involutive].
  destruct (drop_while_suffix (reverse u)) as [pre Hpre]. fold v in Hpre.
  apply (f_equal reverse) in Hpre.
  rewrite reverse_involutive, reverse_app in Hpre.
  destruct (reverse v) as [|c w]; [done|].
  rewrite Hpre in Hu. exact Hu.
Qed.

Lemma trim_idemp (s : jsstring) : trim (trim s) = trim s.
Proof.
  destruct (trim_heads s) as [H1 H2].
  unfold trim at 1. unfold trimStart.
  rewrite (drop_while_fix _ H1), (drop_while_fix _ H2).
  apply reverse_involutive.
Qed.

Lemma free_text_trim (s : jsstring) : free_text (str_or_null (trim s)).
Proof.
  unfold str_or_null. destruct (trim s) eqn:E; [done|].
  split; [done|]. rewrite <- E. apply trim_idemp.
Qed.

Lemma trimmed_or_null_free v o :
  trimmed_or_null v = Some o -> free_text (nullable_or_null o).
Proof.
  unfold trimmed_or_null. destruct (nullish v); [by intros [= <-]|].
  destruct (String v) as [s|]; [|done]. intros [= <-]. apply free_text_trim.
Qed.

Lemma accepted_free_text ev st e :
  accepted ev st = Some e ->
  free_text (Entry.extension e) /\ free_text (Entry.source e)
  /\ free_text (Entry.note e) /\ free_text (Entry.callerName e)
  /\ Entry.phone e <> [].
Proof.
  destruct ev as [secret r now throws| | | | |]; try discriminate.
  cbn [accepted]. unfold plan_of.
  destruct (secret_rejected secret r); [discriminate|].
  destruct (sanitizePhone (phone_field r)) as [p|] eqn:Hp; [|discriminate].
  destruct (negb (nonempty (display p)) && negb (nonempty (digits p))) eqn:Hm;
    [discriminate|].
  destruct (trimmed_or_null (body_field b_extension r)) as [ext|] eqn:He;
    [|discriminate].
  destruct (trimmed_or_null (body_field b_source r)) as [src|] eqn:Hs;
    [|discriminate].
  destruct (normalizeStatus (body_field b_status r)) as [status|];
    [|discriminate].
  intros [= <-]. unfold make_entry.
  cbn [Entry.extension Entry.source Entry.note Entry.callerName Entry.phone].
  split; [by eapply trimmed_or_null_free|].
  split; [by eapply trimmed_or_null_free|]. split; [|split].
  - destruct (body_field b_note r); try done. apply free_text_trim.
  - destruct (body_field b_name r); try done. apply free_text_trim.
  - destruct (display p), (digits p); done.
Qed.

Lemma run_history_Forall (P : entry -> Prop) evs st :
  (forall ev st e, accepted ev st = Some e -> P e) ->
  ring_inv st -> Forall P (callHistory st) ->
  Forall P (callHistory (run evs st)).
Proof.
  intros HP. revert st. induction evs as [|ev evs IH]; intros st Hr Hall; [done|].
  rewrite run_cons. apply IH; [by apply step_ring_inv|].
  rewrite step_history by (by destruct Hr).
  destruct (accepted ev st) as [e|] eqn:Ha; [|done].
  apply Forall_take. constructor; [by eapply HP|done].
Qed.

(** X7: every entry of the ring of a reachable state, and [lastCall], has
    one to twenty decimal digits as [digits], a non-empty [phone] that is
    [digits] with or without a ['+'] in front, one of the four labels as
    status, and [extension], [source], [note] and caller name that are
    [null] or a non-empty string without white space at either end. *)
Theorem stored_entries_normalized (st : state) :
  reachable st ->
  let good e :=
    entry_wf e /\ Entry.phone e <> []
    /\ free_text (Entry.extension e) /\ free_text (Entry.source e)
    /\ free_text (Entry.note e) /\ free_text (Entry.callerName e) in
  Forall good (callHistory st)
  /\ (forall e, lastCall st = Some e -> good e).
Proof.
  intros Hreach good.
  assert (Hall : Forall good (callHistory st)).
  { destruct Hreach as [evs ->].
    apply run_history_Forall; [|apply initial_ring_inv|constructor].
    intros ev s e Ha. split; [by eapply accepted_wf|].
    destruct (accepted_free_text ev s e Ha) as (? & ? & ? & ? & ?). done. }
  split; [done|]. intros e He.
  destruct Hreach as [evs ->].
  destruct (run_ring_inv evs initial initial_ring_inv) as [_ Hl].
  rewrite He in Hl. destruct (callHistory (run evs initial)) as [|e' h];
    [done|].
  injection Hl as ->. by inversion Hall.
Qed.

Lemma stored_entries_normalized_witness :
  Forall (fun e => Entry.phone e <> []) (callHistory (run five_calls initial)).
Proof.
  eapply Forall_impl.
  - apply (stored_entries_normalized (run five_calls initial)). by eexists.
  - intros e He. apply He.
Defined.

(** ** Streams: what an ingestion does to them *)

Lemma streams_eq a b :
  streams a = streams b ->
  listeners a = listeners b /\ sessions a = sessions b
  /\ next_handle a = next_handle b /\ intervals a = intervals b
  /\ written a = written b.
Proof. unfold streams, hub. intros H. by injection H. Qed.

Lemma streams_intro a b :
  listeners a = listeners b -> sessions a = sessions b ->
  next_handle a = next_handle b -> intervals a = intervals b ->
  written a = written b -> streams a = streams b.
Proof. unfold streams, hub. by intros -> -> -> -> ->. Qed.

Lemma deliver_streams throws e a b l :
  streams a = streams b ->
  streams (deliver throws e a l) = streams (deliver throws e b l).
Proof.
  intros (Hl & Hs & Hn & Hi & Hw)%streams_eq. unfold deliver.
  destruct (throws (res l)).
  - destruct l as [r [t|]]; apply streams_intro; cbn; congruence.
  - apply streams_intro; cbn; congruence.
Qed.

Lemma fanout_streams throws e ls a b :
  streams a = streams b ->
  streams (fanout throws e ls a) = streams (fanout throws e ls b).
Proof.
  revert a b. induction ls as [|l ls IH]; intros a b H; [done|].
  rewrite !fan_cons. by apply IH, deliver_streams.
Qed.

Lemma warn_streams secret st : streams (warn_unless_secret secret st) = streams st.
Proof.
  unfold warn_unless_secret. destruct secret as [[|c s]|]; try done;
    by destruct (secretWarningLogged st).
Qed.

Lemma storeInHistory_streams e st : streams (storeInHistory e st) = streams st.
Proof. unfold storeInHistory. destruct (decide _); reflexivity. Qed.

Lemma handle_post_streams secret r now throws st :
  streams (fst (handle_post secret r now throws st))
  = match accepted (EPost secret r now throws) st with
    | Some e => streams (broadcast throws e st)
    | None => streams st
    end.
Proof.
  rewrite handle_post_plan. cbv zeta. cbn [accepted].
  pose proof (warn_streams secret st) as Hw.
  destruct (plan_of secret r) as [| | | |p ext src status]; cbn [fst];
    try done.
  destruct (core_eq _ _ (warn_core secret st)) as (_ & _ & Hq).
  cbn [sequence set_sequence]. rewrite Hq.
  set (e := make_entry _ p ext src status r now).
  set (st3 := set_lastCall _ _).
  assert (H3 : streams st3 = streams st).
  { subst st3.
    transitivity (streams (storeInHistory e
                    (set_sequence (S (sequence st)) (warn_unless_secret secret st))));
      [reflexivity|].
    rewrite storeInHistory_streams. exact Hw. }
  unfold broadcast.
  destruct (streams_eq _ _ H3) as (-> & _).
  by apply fanout_streams.
Qed.

Lemma handle_log_streams user limit db st :
  streams (fst (handle_log user limit db st)) = streams st.
Proof.
  unfold handle_log. destruct user; [|done]. cbn [negb].
  destruct (log_limit limit); [|done]. cbv zeta.
  by destruct (load_people _ _) as [m [|]].
Qed.

(** ** Streams: timers and listeners *)

Lemma hub_listener_shape st l :
  hub_inv st -> l ∈ listeners st -> l = mk_listener (res l).
Proof.
  intros (_ & Hl & Hs & _) Hin. by destruct (Hs _ _ (Hl l Hin)).
Qed.

Lemma mk_listener_inj h k : mk_listener h = mk_listener k -> h = k.
Proof. by intros [= ->]. Qed.

Lemma cleanup_live h st :
  live_inv st -> live_inv (cleanupListener (Some (mk_listener h)) st).
Proof.
  intros [Ha Hw].
  change (cleanupListener (Some (mk_listener h)) st)
    with (set_listeners (set_delete (mk_listener h)) (clearInterval h st)).
  split; [|exact Hw].
  intros k. cbn [intervals listeners set_listeners clearInterval set_intervals].
  unfold set_delete.
  rewrite elem_of_difference, elem_of_singleton, list_elem_of_filter, Ha.
  split.
  - intros [Hin Hne]. split; [|done]. intros E. by apply mk_listener_inj in E.
  - intros [Hne Hin]. split; [done|]. intros ->. done.
Qed.

Lemma session_shape st h l :
  hub_inv st -> sessions st !! h = Some l ->
  l = mk_listener h /\ (h < next_handle st)%nat.
Proof. intros (_ & _ & Hs & _) Hl. by apply Hs. Qed.

Lemma deliver_sessions throws e st l :
  sessions (deliver throws e st l) = sessions st.
Proof.
  unfold deliver. destruct (throws (res l)); [|done].
  by destruct l as [r [t|]].
Qed.

Lemma deliver_live throws e st l :
  hub_inv st -> live_inv st -> sessions st !! res l = Some l ->
  live_inv (deliver throws e st l).
Proof.
  intros Hh Hl Hs. unfold deliver.
  destruct (session_shape st _ _ Hh Hs) as [Hshape Hlt].
  destruct (throws (res l)).
  - rewrite Hshape. by apply cleanup_live.
  - destruct Hl as [Ha Hw]. split; [exact Ha|].
    intros h. cbn. intros Hsome.
    destruct (decide (res l = h)) as [<-|Hne]; [done|].
    rewrite lookup_insert_ne in Hsome by done. by apply Hw.
Qed.

Lemma fanout_live throws e ls st :
  hub_inv st -> live_inv st ->
  (forall l, l ∈ ls -> sessions st !! res l = Some l) ->
  live_inv (fanout throws e ls st).
Proof.
  revert st. induction ls as [|l ls IH]; intros st Hh Hl Hs; [done|].
  rewrite fan_cons. apply IH.
  - by apply deliver_hub_inv.
  - apply deliver_live; [done..|]. apply Hs. left.
  - intros x Hx. rewrite deliver_sessions. apply Hs. by right.
Qed.

Lemma broadcast_live throws e st :
  hub_inv st -> live_inv st -> live_inv (broadcast throws e st).
Proof.
  intros Hh Hl. apply fanout_live; [done..|].
  intros l Hin. by destruct Hh as (_ & Hs & _); apply Hs.
Qed.

Lemma live_inv_ext a b : streams a = streams b -> live_inv a -> live_inv b.
Proof.
  intros (Hl & _ & Hn & Hi & Hw)%streams_eq. unfold live_inv.
  by rewrite <- Hl, <- Hn, <- Hi, <- Hw.
Qed.

Lemma hub_of_streams a b : streams a = streams b -> hub a = hub b.
Proof. intros (Hl & Hs & Hn & Hi & _)%streams_eq. unfold hub. congruence. Qed.

Lemma handle_stream_live user t1 t2 st :
  hub_inv st -> live_inv st -> live_inv (fst (handle_stream user t1 t2 st)).
Proof.
  intros Hh [Ha Hw]. unfold handle_stream.
  destruct user; [|done]. cbn [negb]. cbv zeta.
  set (h := next_handle st).
  assert (Hfresh : mk_listener h ∉ listeners st).
  { intros Hin. destruct Hh as (_ & Hl & Hs & _).
    destruct (Hs _ _ (Hl _ Hin)) as [_ Hlt]. cbn in Hlt. fold h in Hlt. lia. }
  destruct t1.
  { split; [exact Ha|]. intros k Hk. cbn. apply Hw in Hk. fold h in Hk. lia. }
  assert (Hinv : live_inv
    (set_listeners (set_add {| res := h; heartbeat := Some h |})
       (set_sessions (fun m => <[h:={| res := h; heartbeat := Some h |}]> m)
          (set_intervals (fun s => s ∪ {[h]})
             (res_write h FRetry (set_next_handle (S h) st)))))).
  { split.
    - intros k. cbn -[set_add]. fold (mk_listener h).
      rewrite (set_add_fresh _ _ Hfresh), elem_of_union, elem_of_singleton,
        elem_of_app, list_elem_of_singleton, Ha.
      split; (intros [?|E]; [by left|right]); [by subst|by apply mk_listener_inj].
    - intros k. cbn. intros Hk.
      destruct (decide (h = k)) as [<-|Hne]; [lia|].
      rewrite lookup_insert_ne in Hk by done. apply Hw in Hk. fold h in Hk. lia. }
  match goal with |- context [lastCall ?s] => change (lastCall s) with (lastCall st) end.
  destruct (lastCall st) as [e|]; [destruct t2|]; cbn [fst]; try done.
  destruct Hinv as [Ha' Hw']. split; [exact Ha'|].
  intros k. cbn. intros Hk.
  destruct (decide (h = k)) as [<-|Hne]; [lia|].
  rewrite lookup_insert_ne in Hk by done.
  specialize (Hw' k). cbn in Hw'. apply Hw'. exact Hk.
Qed.

Lemma step_live ev st :
  hub_inv st -> live_inv st -> live_inv (fst (step ev st)).
Proof.
  intros Hh Hl.
  destruct ev as [secret r now throws|user t1 t2|user|user limit db|h|h t];
    cbn [step].
  - pose proof (handle_post_streams secret r now throws st) as Hs.
    destruct (handle_post secret r now throws st) as [st' resp]. cbn [fst] in *.
    destruct (accepted _ st) as [e|]; eapply live_inv_ext; try (symmetry; exact Hs);
      [by apply broadcast_live|done].
  - pose proof (handle_stream_live user t1 t2 st Hh Hl).
    by destruct (handle_stream user t1 t2 st).
  - unfold handle_last. by destruct user.
  - pose proof (handle_log_streams user limit db st) as Hs.
    destruct (handle_log user limit db st) as [st' resp]. cbn [fst] in *.
    eapply live_inv_ext; [symmetry; exact Hs|done].
  - cbn [fst]. unfold on_close. destruct (sessions st !! h) as [l|] eqn:Hs; [|done].
    destruct (session_shape st h l Hh Hs) as [-> _]. by apply cleanup_live.
  - cbn [fst]. unfold heartbeat_tick. case_decide; [|done].
    destruct (sessions st !! h) as [l|] eqn:Hs; [|done].
    destruct (session_shape st h l Hh Hs) as [-> Hlt].
    destruct t; [by apply cleanup_live|].
    destruct Hl as [Ha Hw]. split; [exact Ha|].
    intros k. cbn. intros Hk.
    destruct (decide (h = k)) as [<-|Hne]; [done|].
    rewrite lookup_insert_ne in Hk by done. by apply Hw.
Qed.

Lemma run_live evs st :
  hub_inv st -> live_inv st -> hub_inv (run evs st) /\ live_inv (run evs st).
Proof.
  revert st. induction evs as [|ev evs IH]; intros st Hh Hl; [done|].
  rewrite run_cons. apply IH; [by apply step_hub_inv|by apply step_live].
Qed.

Lemma initial_live : live_inv initial.
Proof.
  split.
  - intros h. cbn. split; [set_solver|]. intros H. by apply elem_of_nil in H.
  - intros h. cbn. rewrite lookup_empty. by intros [? ?].
Qed.

Lemma reachable_live st : reachable st -> hub_inv st /\ live_inv st.
Proof.
  intros [evs ->]. apply run_live; [apply initial_hub_inv|apply initial_live].
Qed.

(** X8: in every reachable state a heartbeat timer is running exactly for
    the listeners that are registered: no listener is left without its
    timer and no timer outlives its listener; every registered listener is
    the one its response's handlers captured, and only responses that were
    opened have received anything. *)
Theorem timers_match_listeners (st : state) :
  reachable st ->
  (forall h, h ∈ intervals st <-> mk_listener h ∈ listeners st)
  /\ (forall l, l ∈ listeners st ->
        l = mk_listener (res l) /\ sessions st !! res l = Some l)
  /\ (forall h, frames st h <> [] -> (h < next_handle st)%nat).
Proof.
  intros Hreach. destruct (reachable_live st Hreach) as [Hh [Ha Hw]].
  split; [exact Ha|]. split.
  - intros l Hl. split; [by apply (hub_listener_shape st)|].
    by destruct Hh as (_ & Hs & _); apply Hs.
  - intros h Hne. apply Hw. unfold frames in Hne.
    destruct (written st !! h); [done|]. by cbn in Hne.
Qed.

Lemma timers_match_listeners_witness :
  0%nat ∈ intervals two_streams /\ mk_listener 0 ∈ listeners two_streams.
Proof.
  assert (H : reachable two_streams) by (by eexists).
  destruct (timers_match_listeners two_streams H) as (Ha & _).
  assert (Hin : mk_listener 0 ∈ listeners two_streams) by (vm_compute; left).
  split; [by apply Ha|exact Hin].
Defined.

(** ** Streams: what each event writes and whom it keeps registered *)

Lemma frames_insert st r f h :
  frames (res_write r f st) h
  = if decide (r = h) then frames st h ++ [f] else frames st h.
Proof.
  unfold frames. cbn. case_decide as E.
  - subst. by rewrite lookup_insert_eq.
  - by rewrite lookup_insert_ne.
Qed.

Lemma listener_res_in st h :
  hub_inv st -> h ∈ map res (listeners st) -> mk_listener h ∈ listeners st.
Proof.
  intros Hh Hin. apply list_elem_of_fmap in Hin as (l & -> & Hl).
  by rewrite <- (hub_listener_shape st l Hh Hl).
Qed.

Lemma broadcast_frames throws e st h :
  hub_inv st ->
  frames (broadcast throws e st) h
  = frames st h
    ++ (if decide (mk_listener h ∈ listeners st)
        then (if throws h then [] else [FCall e]) else []).
Proof.
  intros Hh. unfold frames, broadcast. case_decide as Hreg.
  - assert (Hin : h ∈ map res (listeners st)).
    { apply list_elem_of_fmap. by exists (mk_listener h). }
    destruct (throws h) eqn:Ht.
    + rewrite fan_written_other by (by right). by rewrite app_nil_r.
    + rewrite (fan_written_delivered throws e _ st h); [done| |done..].
      by destruct Hh.
  - rewrite fan_written_other; [by rewrite app_nil_r|].
    left. intros Hin. by apply Hreg, listener_res_in.
Qed.

Lemma broadcast_registered throws e st h :
  mk_listener h ∈ listeners (broadcast throws e st)
  <-> mk_listener h ∈ listeners st /\ throws h = false.
Proof.
  unfold broadcast. rewrite fan_listeners. cbn [res mk_listener].
  split.
  - intros [Hin Hno]. split; [done|].
    destruct (throws h); [|done]. exfalso. by apply Hno.
  - intros [Hin Ht]. split; [done|]. intros [_ Ht']. congruence.
Qed.

Lemma frames_streams a b h : streams a = streams b -> frames a h = frames b h.
Proof. intros (_ & _ & _ & _ & Hw)%streams_eq. unfold frames. by rewrite Hw. Qed.

Lemma fresh_handle st :
  hub_inv st -> live_inv st ->
  mk_listener (next_handle st) ∉ listeners st
  /\ frames st (next_handle st) = [].
Proof.
  intros Hh [_ Hw]. split.
  - intros Hin. destruct Hh as (_ & Hl & Hs & _).
    destruct (Hs _ _ (Hl _ Hin)) as [_ Hlt]. cbn in Hlt. lia.
  - unfold frames. destruct (written st !! next_handle st) eqn:E; [|done].
    assert (next_handle st < next_handle st)%nat by (apply Hw; eauto). lia.
Qed.

Lemma registered_session st h :
  hub_inv st -> live_inv st -> mk_listener h ∈ listeners st ->
  h ∈ intervals st /\ sessions st !! h = Some (mk_listener h).
Proof.
  intros Hh [Ha _] Hin. split; [by apply Ha|].
  destruct Hh as (_ & Hl & _). by apply (Hl (mk_listener h)).
Qed.

Lemma set_delete_elem (l x : listener) (ls : list listener) :
  x ∈ set_delete l ls <-> x ∈ ls /\ x <> l.
Proof. unfold set_delete. rewrite list_elem_of_filter. tauto. Qed.

Lemma cleanup_registered k st h :
  mk_listener h ∈ listeners (cleanupListener (Some (mk_listener k)) st)
  <-> mk_listener h ∈ listeners st /\ h <> k.
Proof.
  change (cleanupListener (Some (mk_listener k)) st)
    with (set_listeners (set_delete (mk_listener k)) (clearInterval k st)).
  cbn [listeners set_listeners clearInterval set_intervals].
  rewrite set_delete_elem. split; intros [? Hne]; (split; [done|]).
  - intros ->. done.
  - intros E. by apply mk_listener_inj in E.
Qed.

Lemma step_frames ev st h :
  hub_inv st -> live_inv st ->
  frames (fst (step ev st)) h = frames st h ++ added ev st h.
Proof.
  intros Hh Hl.
  destruct ev as [secret r now throws|user t1 t2|user|user limit db|k|k t];
    cbn [step].
  - pose proof (handle_post_streams secret r now throws st) as Hs.
    destruct (handle_post secret r now throws st) as [st' resp]. cbn [fst] in *.
    unfold added. destruct (accepted _ st) as [e|].
    + rewrite (frames_streams _ _ h Hs). by apply broadcast_frames.
    + rewrite (frames_streams _ _ h Hs). by rewrite app_nil_r.
  - destruct (fresh_handle st Hh Hl) as [_ Hfr].
    unfold handle_stream, added.
    destruct user; [|by rewrite app_nil_r]. cbn [negb]. cbv zeta.
    destruct t1; [by rewrite app_nil_r|].
    match goal with |- context [lastCall ?s] => change (lastCall s) with (lastCall st) end.
    destruct (lastCall st) as [e|]; [destruct t2|]; cbn [fst];
      rewrite ?frames_insert;
      match goal with
      | |- frames ?s h = _ =>
          change (frames s h) with (frames (res_write (next_handle st) FRetry st) h)
      | |- (if _ then frames ?s h ++ _ else frames ?s h) = _ =>
          change (frames s h) with (frames (res_write (next_handle st) FRetry st) h)
      end;
      rewrite frames_insert;
      repeat case_decide; subst; try done;
      rewrite ?Hfr, ?app_nil_r; done.
  - unfold handle_last. destruct user; cbn; by rewrite app_nil_r.
  - pose proof (handle_log_streams user limit db st) as Hs.
    destruct (handle_log user limit db st) as [st' resp]. cbn [fst] in *.
    rewrite (frames_streams _ _ h Hs). cbn. by rewrite app_nil_r.
  - cbn [fst added]. rewrite app_nil_r. unfold on_close.
    destruct (sessions st !! k) as [l|]; [|done]. by destruct l as [r [t|]].
  - cbn [fst]. unfold heartbeat_tick, added.
    destruct t.
    + rewrite app_nil_r. case_decide; [|done].
      destruct (sessions st !! k) as [l|]; [|done]. by destruct l as [r [t|]].
    + case_decide as Hin.
      * assert (Hreg : mk_listener k ∈ listeners st) by (by apply Hl).
        destruct (registered_session st k Hh Hl Hreg) as [_ ->].
        cbn [res mk_listener]. rewrite frames_insert.
        case_decide as E1; case_decide as E2; try done.
        -- exfalso. subst. by apply E2.
        -- exfalso. by destruct E2.
        -- by rewrite app_nil_r.
      * case_decide as Hk; [|by rewrite app_nil_r].
        destruct Hk as [-> Hreg]. exfalso. apply Hin. by apply Hl.
Qed.

Lemma listeners_streams a b : streams a = streams b -> listeners a = listeners b.
Proof. by intros (? & _)%streams_eq. Qed.

Lemma handle_stream_listeners t2 st :
  listeners (fst (handle_stream true false t2 st))
  = set_add (mk_listener (next_handle st)) (listeners st).
Proof.
  unfold handle_stream. cbn [negb]. cbv zeta.
  match goal with |- context [lastCall ?s] => change (lastCall s) with (lastCall st) end.
  destruct (lastCall st); [destruct t2|]; reflexivity.
Qed.

Lemma step_stream_fst user t1 t2 st :
  fst (step (EStream user t1 t2) st) = fst (handle_stream user t1 t2 st).
Proof. cbn [step]. by destruct (handle_stream user t1 t2 st). Qed.

Lemma step_registered ev st h :
  hub_inv st -> live_inv st ->
  mk_listener h ∈ listeners (fst (step ev st)) <-> registered_after ev st h.
Proof.
  intros Hh Hl.
  destruct ev as [secret r now throws|user t1 t2|user|user limit db|k|k t];
    cbn [step registered_after].
  - pose proof (handle_post_streams secret r now throws st) as Hs.
    destruct (handle_post secret r now throws st) as [st' resp]. cbn [fst] in *.
    destruct (accepted _ st) as [e|]; rewrite (listeners_streams _ _ Hs).
    + rewrite broadcast_registered. split; intros [? Ht]; (split; [done|]);
        [done|apply Ht; eauto].
    + split; [intros ?; split; [done|by intros [? ?]]|by intros [? _]].
  - destruct (fresh_handle st Hh Hl) as [Hfresh _].
    fold (step (EStream user t1 t2) st). rewrite step_stream_fst.
    destruct user; [|done]. destruct t1; [done|].
    rewrite handle_stream_listeners, (set_add_fresh _ _ Hfresh), elem_of_app,
      list_elem_of_singleton.
    split; (intros [?|E]; [by left|right]); [by apply mk_listener_inj|by subst].
  - unfold handle_last. by destruct user.
  - pose proof (handle_log_streams user limit db st) as Hs.
    destruct (handle_log user limit db st) as [st' resp]. cbn [fst] in *.
    by rewrite (listeners_streams _ _ Hs).
  - cbn [fst]. unfold on_close.
    destruct (sessions st !! k) as [l|] eqn:Hs.
    + destruct (session_shape st k l Hh Hs) as [-> _]. apply cleanup_registered.
    + split; [|by intros [? _]]. intros Hin. split; [done|]. intros ->.
      destruct (registered_session st k Hh Hl Hin) as [_ E]. congruence.
  - cbn [fst]. unfold heartbeat_tick. destruct t.
    + case_decide as Hin.
      * assert (Hreg : mk_listener k ∈ listeners st) by (by apply Hl).
        destruct (registered_session st k Hh Hl Hreg) as [_ ->].
        apply cleanup_registered.
      * split; [|by intros [? _]]. intros Hreg. split; [done|]. intros ->.
        apply Hin. by apply Hl.
    + case_decide; [|done]. by destruct (sessions st !! k).
Qed.

Lemma run_app evs1 evs2 st : run (evs1 ++ evs2) st = run evs2 (run evs1 st).
Proof. unfold run. apply foldl_app. Qed.

Lemma reachable_run evs st : reachable st -> reachable (run evs st).
Proof. intros [evs0 ->]. exists (evs0 ++ evs). by rewrite run_app. Qed.

Lemma step_next_handle ev st :
  (next_handle st <= next_handle (fst (step ev st)))%nat.
Proof.
  destruct ev as [secret r now throws|user t1 t2|user|user limit db|k|k t];
    cbn [step].
  - destruct (handle_post_frame secret r now throws st) as [_ Hn].
    destruct (handle_post secret r now throws st). cbn [fst] in *. lia.
  - unfold handle_stream. destruct user; [|done]. cbn [negb]. cbv zeta.
    destruct t1; [cbn; lia|].
    match goal with |- context [lastCall ?s] => change (lastCall s) with (lastCall st) end.
    destruct (lastCall st); [destruct t2|]; cbn; lia.
  - unfold handle_last. by destruct user.
  - destruct (hub_eq _ _ (proj1 (handle_log_frame user limit db st))) as (_ & _ & Hn & _).
    destruct (handle_log user limit db st). cbn [fst] in *. lia.
  - cbn [fst]. unfold on_close. destruct (sessions st !! k); [|done].
    destruct (cleanupListener_frame (Some l) st) as [-> _]. done.
  - cbn [fst]. unfold heartbeat_tick. case_decide; [|done].
    destruct (sessions st !! k); [|done]. destruct t; [|done].
    destruct (cleanupListener_frame (Some l) st) as [-> _]. done.
Qed.

(** X9: an authorized stream request on a reachable state whose first
    write does not throw registers one new listener, after the others,
    with its timer running; its response has received the retry hint and
    then the last call, when there is one and that write does not throw;
    no other response receives anything and the ingestion state is left
    alone.  When the first write throws, nothing is registered. *)
Theorem stream_open (throws_last : bool) (st : state) :
  reachable st ->
  let h := next_handle st in
  let st' := fst (handle_stream true false throws_last st) in
  mk_listener h ∉ listeners st
  /\ listeners st' = listeners st ++ [mk_listener h]
  /\ h ∈ intervals st'
  /\ frames st' h
     = FRetry :: match lastCall st with
                 | Some e => if throws_last then [] else [FCall e]
                 | None => []
                 end
  /\ (forall k, k <> h -> frames st' k = frames st k)
  /\ core st' = core st
  /\ streams (fst (handle_stream true true throws_last st))
     = streams (set_next_handle (S h) st)
  /\ snd (handle_stream true true throws_last st) = Thrown.
Proof.
  intros Hreach h st'. subst h st'.
  destruct (reachable_live st Hreach) as [Hh Hl].
  destruct (fresh_handle st Hh Hl) as [Hfresh Hfr].
  pose proof (step_frames (EStream true false throws_last) st) as Hframes.
  pose proof (step_live (EStream true false throws_last) st Hh Hl) as Hl'.
  pose proof (step_registered (EStream true false throws_last) st
                (next_handle st) Hh Hl) as Hreg.
  rewrite step_stream_fst in Hl', Hreg.
  setoid_rewrite step_stream_fst in Hframes.
  split; [done|]. split; [|split; [|split; [|split; [|split; [|split]]]]].
  - by rewrite handle_stream_listeners, (set_add_fresh _ _ Hfresh).
  - apply Hl'. apply Hreg. cbn. by right.
  - rewrite (Hframes _ Hh Hl), Hfr. cbn [added app].
    by rewrite decide_True.
  - intros k Hk. rewrite (Hframes k Hh Hl). cbn [added].
    rewrite decide_False by done. by rewrite app_nil_r.
  - apply handle_stream_core.
  - reflexivity.
  - reflexivity.
Qed.

Lemma stream_open_witness :
  frames (fst (handle_stream true false false (run sample_run initial))) 0
  = [FRetry; FCall (sample_entry_plus 2)].
Proof.
  assert (H : reachable (run sample_run initial)) by (by eexists).
  destruct (stream_open false (run sample_run initial) H) as (_ & _ & _ & Hf & _).
  exact Hf.
Defined.

(** X10: once the listener of a response that was opened is not registered
    (it was closed, or a write to it threw), nothing is ever written to
    that response again and it is never registered again, whatever events
    follow. *)
Theorem closed_stream_silent (st : state) (h : nat) (evs : list event) :
  reachable st ->
  (h < next_handle st)%nat ->
  mk_listener h ∉ listeners st ->
  frames (run evs st) h = frames st h
  /\ mk_listener h ∉ listeners (run evs st)
  /\ h ∉ intervals (run evs st).
Proof.
  revert st. induction evs as [|ev evs IH]; intros st Hreach Hlt Hout.
  - split; [done|]. split; [done|].
    destruct (reachable_live st Hreach) as [_ [Ha _]]. by rewrite Ha.
  - rewrite run_cons.
    destruct (reachable_live st Hreach) as [Hh Hl].
    assert (Hadd : added ev st h = []).
    { destruct ev as [secret r now throws|[] [] t2|user|user limit db|k|k []];
        cbn [added]; try done.
      - destruct (accepted _ st); [|done]. by rewrite decide_False.
      - rewrite decide_False; [done|lia].
      - rewrite decide_False; [done|]. by intros [_ ?]. }
    assert (Hout' : mk_listener h ∉ listeners (fst (step ev st))).
    { rewrite (step_registered ev st h Hh Hl).
      destruct ev as [secret r now throws|[] [] t2|user|user limit db|k|k []];
        cbn [registered_after]; try done; try (by intros [? _]).
      intros [?|?]; [done|lia]. }
    destruct (IH (fst (step ev st))) as (Hf & Hr & Hi).
    + change (fst (step ev st)) with (run [ev] st). by apply reachable_run.
    + pose proof (step_next_handle ev st). lia.
    + done.
    + split; [|done]. by rewrite Hf, (step_frames ev st h Hh Hl), Hadd, app_nil_r.
Qed.

Lemma closed_stream_silent_witness :
  let st := run [EStream true false false; EStream true false false; EClose 0%nat]
              initial in
  frames (run [sample_post "0123"; ETick 0 false] st) 0 = frames st 0.
Proof.
  intros st.
  assert (H : reachable st) by (by eexists).
  apply (closed_stream_silent st 0 [sample_post "0123"; ETick 0 false] H).
  - vm_compute. lia.
  - vm_compute. intros Hin. apply list_elem_of_singleton in Hin. discriminate.
Defined.

(** X11: on a reachable state, the heartbeat of a registered listener
    whose write does not throw writes one keep-alive to that listener's
    response and changes nothing else; when the write throws, the heartbeat
    does what the close handlers do, and the listener is unregistered with
    its timer cleared; the heartbeat of a listener that is not registered
    does nothing. *)
Theorem heartbeat_on_live_session (st : state) (h : nat) :
  reachable st ->
  (mk_listener h ∈ listeners st ->
     heartbeat_tick h false st = res_write h FKeepAlive st
     /\ heartbeat_tick h true st = on_close h st
     /\ mk_listener h ∉ listeners (on_close h st)
     /\ h ∉ intervals (on_close h st))
  /\ (mk_listener h ∉ listeners st ->
       forall throws, heartbeat_tick h throws st = st).
Proof.
  intros Hreach. destruct (reachable_live st Hreach) as [Hh Hl]. split.
  - intros Hreg. destruct (registered_session st h Hh Hl Hreg) as [Hi Hs].
    unfold heartbeat_tick, on_close. rewrite Hs, !decide_True by done.
    split; [done|]. split; [done|].
    pose proof (cleanup_live h st Hl) as [Ha' _].
    assert (Hno : mk_listener h ∉
              listeners (cleanupListener (Some (mk_listener h)) st)).
    { rewrite cleanup_registered. by intros [_ ?]. }
    split; [done|]. by rewrite Ha'.
  - intros Hout throws. unfold heartbeat_tick.
    rewrite decide_False; [done|]. destruct Hl as [Ha _]. by rewrite Ha.
Qed.

Lemma heartbeat_on_live_session_witness :
  frames (heartbeat_tick 1 false two_streams) 1 = [FRetry; FKeepAlive].
Proof.
  assert (H : reachable two_streams) by (by eexists).
  destruct (heartbeat_on_live_session two_streams 1 H) as [Hlive _].
  destruct Hlive as [-> _]; [vm_compute; right; left|].
  reflexivity.
Defined.

Lemma run_snoc evs ev st : run (evs ++ [ev]) st = fst (step ev (run evs st)).
Proof. by rewrite run_app. Qed.

Lemma ingested_snoc evs ev st :
  ingested (evs ++ [ev]) st
  = ingested evs st
    ++ match accepted ev (run evs st) with Some e => [e] | None => [] end.
Proof.
  revert st. induction evs as [|ev0 evs IH]; intros st.
  - change ([] ++ [ev]) with [ev]. rewrite ingested_cons.
    change (run [] st) with st. by destruct (accepted ev st).
  - change ((ev0 :: evs) ++ [ev]) with (ev0 :: (evs ++ [ev])).
    rewrite !ingested_cons, IH, run_cons. by destruct (accepted ev0 st).
Qed.

Lemma lastCall_last evs :
  lastCall (run evs initial) = last (ingested evs initial).
Proof.
  induction evs as [|ev evs IH] using rev_ind; [done|].
  rewrite run_snoc, ingested_snoc.
  pose proof (f_equal (fun c => snd (fst c)) (step_core ev (run evs initial)))
    as Hc.
  destruct (accepted ev (run evs initial)) as [e|];
    unfold core in Hc; cbn [fst snd] in Hc; rewrite Hc.
  - by rewrite last_snoc.
  - by rewrite app_nil_r, <- IH.
Qed.

Lemma calls_of_app fs gs : calls_of (fs ++ gs) = calls_of fs ++ calls_of gs.
Proof. apply omap_app. Qed.

Lemma delivery_inv (evs : list event) (h : nat) :
  (exists pre post,
     ingested evs initial = pre ++ calls_of (frames (run evs initial) h) ++ post)
  /\ (mk_listener h ∈ listeners (run evs initial) ->
        exists pre,
          ingested evs initial = pre ++ calls_of (frames (run evs initial) h)).
Proof.
  revert h. induction evs as [|ev evs IH] using rev_ind; intros h.
  { split; [by exists [], []|by exists []]. }
  assert (IHa := fun h => proj1 (IH h)). assert (IHb := fun h => proj2 (IH h)).
  clear IH. revert h.
  assert (Hreach : reachable (run evs initial)) by (by eexists).
  destruct (reachable_live _ Hreach) as [Hh Hl].
  pose proof (lastCall_last evs) as Hlast.
  pose proof (fresh_handle _ Hh Hl) as [_ Hfr].
  set (st := run evs initial) in *. set (es := ingested evs initial) in *.
  assert (Hstep : forall h,
    (exists pre post,
       es ++ match accepted ev st with Some e => [e] | None => [] end
       = pre ++ (calls_of (frames st h) ++ calls_of (added ev st h)) ++ post)
    /\ (registered_after ev st h ->
        exists pre,
          es ++ match accepted ev st with Some e => [e] | None => [] end
          = pre ++ calls_of (frames st h) ++ calls_of (added ev st h))).
  { intros h. destruct (IHa h) as (pre & post & Ha). specialize (IHb h).
    assert (Hkeep : forall new : list entry,
      (exists pre0 post0, es ++ new
         = pre0 ++ (calls_of (frames st h) ++ []) ++ post0)).
    { intros new. exists pre, (post ++ new).
      by rewrite Ha, app_nil_r, <- !app_assoc. }
    assert (Hsame : (mk_listener h ∈ listeners st ->
      exists pre0, es ++ [] = pre0 ++ calls_of (frames st h) ++ [])).
    { intros Hin. destruct (IHb Hin) as [pre0 E]. exists pre0.
      by rewrite !app_nil_r. }
    destruct ev as [secret r now throws|[] [] t2|user|user limit db|k|k []];
      cbn [added registered_after];
      try change (accepted _ st) with (@None entry);
      try (split; [apply Hkeep|]; try exact Hsame; by intros [Hin _]; apply Hsame).
    - destruct (accepted _ st) as [e|]; [|split; [apply Hkeep|by intros [? _]; apply Hsame]].
      case_decide as Hin; [destruct (throws h) eqn:Ht|].
      + split; [apply Hkeep|]. intros [_ Hno]. by discriminate Hno.
      + destruct (IHb Hin) as [pre0 E]. cbn [calls_of omap].
        split; [exists pre0, []|exists pre0]; by rewrite ?app_nil_r, E, <- app_assoc.
      + split; [apply Hkeep|]. by intros [? _].
    - case_decide as Hk.
      + subst h. rewrite Hfr. cbn [calls_of omap app]. rewrite app_nil_r.
        fold st in Hlast. destruct (lastCall st) as [e|] eqn:Hlc; [destruct t2|].
        * split; [by exists es, []; rewrite !app_nil_r|by exists es; rewrite app_nil_r].
        * symmetry in Hlast. apply last_Some in Hlast as [pre0 E].
          split; [exists pre0, []|exists pre0]; by rewrite ?app_nil_r.
        * split; [by exists es, []; rewrite !app_nil_r|by exists es; rewrite app_nil_r].
      + split; [apply Hkeep|]. intros [Hin|?]; [by apply Hsame|done].
    - case_decide as Hk; [|split; [apply Hkeep|exact Hsame]].
      cbn [calls_of omap]. split; [apply Hkeep|exact Hsame]. }
  intros h. rewrite run_snoc, ingested_snoc. fold st es.
  rewrite (step_frames ev st h Hh Hl), calls_of_app,
    (step_registered ev st h Hh Hl).
  apply Hstep.
Qed.

(** X12: every stream receives calls in the order they were ingested and
    without gaps: the calls written to a response are a run of consecutive
    accepted ingestions, and while its listener is registered they are the
    most recent ones, the replayed last call included. *)
Theorem delivery_in_order (evs : list event) (h : nat) :
  let st := run evs initial in
  let calls := calls_of (frames st h) in
  (exists pre post, ingested evs initial = pre ++ calls ++ post)
  /\ (mk_listener h ∈ listeners st ->
        exists pre, ingested evs initial = pre ++ calls)
  /\ lastCall st = last (ingested evs initial).
Proof.
  cbv zeta. destruct (delivery_inv evs h) as [Ha Hb].
  split; [exact Ha|]. split; [exact Hb|apply lastCall_last].
Qed.

(** ** The directory lookup of the history read *)

Lemma add_row_cases m r m' :
  add_row m r = Some m' ->
  m' = m
  \/ exists r0 s, r = Some r0 /\ truthy (row_phone r0) = true
       /\ String (row_phone r0) = Some s /\ trim s <> []
       /\ m !! trim s = None /\ m' = <[trim s := row_person r0]> m.
Proof.
  unfold add_row. destruct r as [r0|]; [|intros [= <-]; by left].
  destruct (truthy (row_phone r0)) eqn:Ht; [|intros [= <-]; by left].
  destruct (String (row_phone r0)) as [s|] eqn:Hs; [|done].
  cbn [mbind option_bind]. intros [= <-].
  destruct (trim s) as [|c key] eqn:Hk; [by left|].
  destruct (m !! (c :: key)) eqn:Hm; [by left|].
  right. exists r0, s. rewrite Hk. by repeat split.
Qed.

Lemma add_row_keeps m r m' k p :
  add_row m r = Some m' -> m !! k = Some p -> m' !! k = Some p.
Proof.
  intros [->|(r0 & s & _ & _ & _ & _ & Hm & ->)]%add_row_cases Hk; [done|].
  rewrite lookup_insert_ne; [done|]. intros E. congruence.
Qed.

Lemma add_rows_keeps rows m k p :
  m !! k = Some p -> fst (add_rows m rows) !! k = Some p.
Proof.
  revert m. induction rows as [|r rows IH]; intros m Hk; [done|].
  cbn [add_rows]. destruct (add_row m r) as [m'|] eqn:Hr; [|done].
  apply IH. by eapply add_row_keeps.
Qed.

Lemma add_rows_app pre post m :
  add_rows m (pre ++ post)
  = if snd (add_rows m pre) then add_rows m pre
    else add_rows (fst (add_rows m pre)) post.
Proof.
  revert m. induction pre as [|r pre IH]; intros m; [done|].
  cbn [app add_rows]. destruct (add_row m r); [apply IH|done].
Qed.

Lemma add_rows_origin rows m k p :
  fst (add_rows m rows) !! k = Some p ->
  m !! k = Some p
  \/ exists r s, Some r ∈ rows /\ truthy (row_phone r) = true
       /\ String (row_phone r) = Some s /\ trim s = k /\ k <> []
       /\ p = row_person r.
Proof.
  revert m. induction rows as [|r rows IH]; intros m Hk; [by left|].
  cbn [add_rows] in Hk. destruct (add_row m r) as [m'|] eqn:Hr; [|by left].
  destruct (IH m' Hk) as [Hm'|(r1 & s1 & Hin & H)].
  - destruct (add_row_cases _ _ _ Hr)
      as [->|(r0 & s & -> & Ht & Hs & Hne & Hnone & ->)]; [by left|].
    destruct (decide (trim s = k)) as [<-|Hkk].
    + rewrite lookup_insert_eq in Hm'. injection Hm' as <-.
      right. exists r0, s. repeat split; try done. left.
    + rewrite lookup_insert_ne in Hm' by done. by left.
  - right. exists r1, s1. split; [by right|done].
Qed.

(** X13: the loop over the directory rows keeps, for each phone, the first
    row that has it: when the rows before a row [r] neither throw nor give
    a person for the digits of an entry, and the trimmed phone of [r] is
    these digits, the person found for the entry is the one of [r],
    whatever rows follow.  Every person found comes from a row whose
    trimmed phone is the entry's digits. *)
Theorem directory_first_row_wins (db : list jsstring -> db_result)
    (ds : list jsstring) (pre post : list (option row)) (r : row)
    (s : jsstring) (e : entry) :
  entry_wf e ->
  ds <> [] ->
  db ds = DbRows (pre ++ Some r :: post) ->
  snd (add_rows ∅ pre) = false ->
  lookup_person (fst (add_rows ∅ pre)) e = None ->
  truthy (row_phone r) = true ->
  String (row_phone r) = Some s ->
  trim s = Entry.digits e ->
  lookup_person (fst (load_people db ds)) e = Some (row_person r)
  /\ (forall rows p,
        lookup_person (fst (add_rows ∅ rows)) e = Some p ->
        exists r0 s0, Some r0 ∈ rows /\ truthy (row_phone r0) = true
          /\ String (row_phone r0) = Some s0
          /\ trim s0 = Entry.digits e /\ p = row_person r0).
Proof.
  intros (Hne & _) Hds Hdb Hpre Hnone Ht Hs Hk.
  assert (Hlook : forall m, lookup_person m e = m !! Entry.digits e).
  { intros m. unfold lookup_person. by destruct (Entry.digits e). }
  rewrite !Hlook in *. split.
  - unfold load_people. destruct ds as [|d ds]; [done|]. rewrite Hdb.
    rewrite add_rows_app, Hpre. cbn [add_rows].
    assert (Hrow : add_row (fst (add_rows ∅ pre)) (Some r)
      = Some (<[Entry.digits e := row_person r]> (fst (add_rows ∅ pre)))).
    { unfold add_row. rewrite Ht, Hs. cbn [mbind option_bind]. rewrite Hk.
      destruct (Entry.digits e) as [|c key]; [done|]. by rewrite Hnone. }
    rewrite Hrow. apply add_rows_keeps, lookup_insert_eq.
  - intros rows p. rewrite Hlook. intros Hp.
    destruct (add_rows_origin _ _ _ _ Hp)
      as [Hempty|(r0 & s0 & Hin & Ht0 & Hs0 & Hk0 & _ & ->)].
    + by rewrite lookup_empty in Hempty.
    + by exists r0, s0.
Qed.

Lemma directory_first_row_wins_witness :
  lookup_person
    (fst (load_people
            (directory [sample_row "999" "A"; sample_row " 0123 " "B";
                        sample_row "0123" "C"])
            [lit "0123"]))
    (sample_entry 1)
  = Some {| p_id := VNum (Finite false 7 1); p_name := VStr (lit "B") |}.
Proof.
  refine (proj1 (directory_first_row_wins
    (directory [sample_row "999" "A"; sample_row " 0123 " "B";
                sample_row "0123" "C"])
    [lit "0123"] [sample_row "999" "A"] [sample_row "0123" "C"]
    {| row_id := VNum (Finite false 7 1); row_name := VStr (lit "B");
       row_phone := VStr (lit " 0123 ") |}
    (lit " 0123 ") (sample_entry 1) _ _ _ _ _ _ _ _)).
  - unfold entry_wf. vm_compute.
    repeat split; try done; try lia.
    + repeat constructor.
    + by left.
    + apply list_elem_of_In. vm_compute. tauto.
  - done.
  - reflexivity.
  - vm_compute. reflexivity.
  - vm_compute. reflexivity.
  - reflexivity.
  - reflexivity.
  - vm_compute. reflexivity.
Defined.

(** X14: when converting the phone of a directory row throws, the rows
    before it have been taken and the rows after it are not looked at: the
    history read logs the lookup error and answers as it does for a
    directory that holds only the rows before. *)
Theorem directory_rows_until_throw (limit : value) (n : Z)
    (db : list jsstring -> db_result) (st : state)
    (pre post : list (option row)) (r : row) :
  log_limit limit = Some n ->
  let ds := slice_digits (take (Z.to_nat n) (callHistory st)) in
  ds <> [] ->
  db ds = DbRows (pre ++ Some r :: post) ->
  snd (add_rows ∅ pre) = false ->
  truthy (row_phone r) = true ->
  String (row_phone r) = None ->
  load_people db ds = (fst (add_rows ∅ pre), true)
  /\ snd (handle_log true limit db st)
     = snd (handle_log true limit (directory pre) st)
  /\ console (fst (handle_log true limit db st)) = console st ++ [ErrorLookup]
  /\ console (fst (handle_log true limit (directory pre) st)) = console st.
Proof.
  intros Hn ds Hds Hdb Hpre Ht Hs.
  assert (Hload : load_people db ds = (fst (add_rows ∅ pre), true)).
  { unfold load_people. destruct ds as [|d ds']; [done|]. rewrite Hdb.
    rewrite add_rows_app, Hpre. cbn [add_rows]. unfold add_row.
    by rewrite Ht, Hs. }
  assert (Hload' : load_people (directory pre) ds = (fst (add_rows ∅ pre), false)).
  { unfold load_people, directory. destruct ds as [|d ds']; [done|].
    rewrite <- Hpre. by destruct (add_rows ∅ pre). }
  split; [exact Hload|]. split; [|split].
  - rewrite !(handle_log_authorized _ _ _ _ Hn). fold ds.
    by rewrite Hload, Hload'.
  - unfold handle_log. cbn [negb]. rewrite Hn. cbv zeta. unfold slice0.
    fold ds. by rewrite Hload.
  - unfold handle_log. cbn [negb]. rewrite Hn. cbv zeta. unfold slice0.
    fold ds. by rewrite Hload'.
Qed.

Lemma directory_rows_until_throw_witness :
  snd (handle_log true VUndefined
         (directory [sample_row "0123" "A"; unprintable_row; sample_row "407" "B"])
         (run sample_run initial))
  = snd (handle_log true VUndefined (directory [sample_row "0123" "A"])
           (run sample_run initial)).
Proof.
  refine (proj1 (proj2 (directory_rows_until_throw VUndefined 100
    (directory [sample_row "0123" "A"; unprintable_row; sample_row "407" "B"])
    (run sample_run initial) [sample_row "0123" "A"] [sample_row "407" "B"]
    {| row_id := VNum (Finite false 9 1); row_name := VStr (lit "Z");
       row_phone := VObj [(lit "toString", VNull)] |} _ _ _ _ _ _))).
  - vm_compute. reflexivity.
  - vm_compute. discriminate.
  - reflexivity.
  - vm_compute. reflexivity.
  - reflexivity.
  - vm_compute. reflexivity.
Defined.

Lemma foldl_set_add_elem {A} `{EqDecision A} (l acc : list A) (x : A) :
  x ∈ foldl (fun s y => set_add y s) acc l <-> x ∈ acc \/ x ∈ l.
Proof.
  revert acc. induction l as [|y l IH]; intros acc; cbn [foldl].
  - split; [by left|]. intros [?|H0]; [done|]. by apply elem_of_nil in H0.
  - rewrite IH. unfold set_add. case_decide as Hy.
    + rewrite elem_of_cons. split; [intros [?|?]; tauto|].
      intros [?|[->|?]]; tauto.
    + rewrite elem_of_app, list_elem_of_singleton, elem_of_cons. tauto.
Qed.

Lemma foldl_set_add_NoDup {A} `{EqDecision A} (l acc : list A) :
  NoDup acc -> NoDup (foldl (fun s y => set_add y s) acc l).
Proof.
  revert acc. induction l as [|y l IH]; intros acc Hacc; [done|].
  cbn [foldl]. apply IH. unfold set_add. case_decide as Hy; [done|].
  apply NoDup_app. split; [done|]. split; [|apply NoDup_singleton].
  intros x Hx ->%list_elem_of_singleton. done.
Qed.

Lemma slice_digits_elem slice d :
  d ∈ slice_digits slice <-> d <> [] /\ exists e, e ∈ slice /\ Entry.digits e = d.
Proof.
  unfold slice_digits, set_of_list. rewrite foldl_set_add_elem.
  rewrite list_elem_of_filter, list_elem_of_fmap.
  split.
  - intros [H|[Hne (e & -> & He)]]; [by apply elem_of_nil in H|].
    split; [by destruct (Entry.digits e)|by exists e].
  - intros [Hne (e & He & <-)]. right.
    split; [by destruct (Entry.digits e)|by exists e].
Qed.

(** X15: the directory is asked once for the digits of the entries a
    history read of a reachable state returns: each of them once, all of
    them strings of decimal digits, and none when the ring is empty, in
    which case the directory is not asked at all; the answer of the read
    depends on the directory through this one query only. *)
Theorem directory_query_arguments (limit : value) (n : Z)
    (db db' : list jsstring -> db_result) (st : state) :
  reachable st ->
  log_limit limit = Some n ->
  let slice := take (Z.to_nat n) (callHistory st) in
  let ds := slice_digits slice in
  NoDup ds
  /\ (forall d, d ∈ ds <-> exists e, e ∈ slice /\ Entry.digits e = d)
  /\ Forall (fun d => d <> [] /\ Forall (fun c => is_digit c = true) d) ds
  /\ (ds = [] <-> callHistory st = [])
  /\ ((ds <> [] -> db' ds = db ds) ->
      handle_log true limit db' st = handle_log true limit db st).
Proof.
  intros Hreach Hn slice ds.
  pose proof (reachable_history_wf st Hreach) as Hwf.
  assert (Hslice : Forall entry_wf slice) by (by apply Forall_take).
  rewrite Forall_forall in Hslice.
  assert (Hpos : 1 <= n).
  { unfold log_limit in Hn. destruct (String limit) as [s|]; [|done].
    cbn in Hn. injection Hn as <-. apply limit_of_text_range. }
  split; [apply foldl_set_add_NoDup, NoDup_nil_2|].
  split; [|split; [|split]].
  - intros d. unfold ds. rewrite slice_digits_elem. split; [by intros [_ ?]|].
    intros (e & He & <-). split; [|by exists e]. by destruct (Hslice e He).
  - apply Forall_forall. intros d (Hne & e & He & <-)%slice_digits_elem.
    split; [done|]. by destruct (Hslice e He) as (_ & Hd & _).
  - split.
    + intros Hds. destruct (callHistory st) as [|e es] eqn:Hh; [done|].
      assert (He : e ∈ slice).
      { unfold slice. rewrite ?Hh. destruct (Z.to_nat n) eqn:E; [lia|]. left. }
      assert (Hin : Entry.digits e ∈ ds).
      { apply slice_digits_elem. split; [by destruct (Hslice e He)|by exists e]. }
      rewrite Hds in Hin. by apply elem_of_nil in Hin.
    + intros Hh. unfold ds, slice. rewrite Hh. by rewrite take_nil.
  - intros Hsame. unfold handle_log. cbn [negb]. rewrite Hn. cbv zeta.
    unfold slice0. fold slice. fold ds.
    assert (Hload : load_people db' ds = load_people db ds).
    { unfold load_people. destruct ds as [|d ds0]; [done|]. by rewrite Hsame. }
    by rewrite Hload.
Qed.

Lemma directory_query_arguments_witness :
  slice_digits (take 100 (callHistory (run sample_run initial)))
  = [lit "407"; lit "0123"]
  /\ NoDup (slice_digits (take 100 (callHistory (run sample_run initial)))).
Proof.
  split; [vm_compute; reflexivity|].
  assert (H : reachable (run sample_run initial)) by (by eexists).
  apply (directory_query_arguments VUndefined 100 (directory []) (directory [])
           (run sample_run initial) H).
  vm_compute. reflexivity.
Defined.

(** ** The warning about the missing secret *)

Lemma handle_post_journal secret r now throws st :
  let st' := fst (handle_post secret r now throws st) in
  let st0 := if secret_rejected secret r then st
             else warn_unless_secret secret st in
  console st' = console st0
  /\ secretWarningLogged st' = secretWarningLogged st0.
Proof.
  cbv zeta. unfold handle_post.
  destruct (secret_rejected secret r); [done|]. cbv zeta.
  destruct (sanitizePhone (phone_field r)) as [p|]; [|done].
  destruct (_ && _); [done|].
  destruct (trimmed_or_null (body_field b_extension r)); [|done].
  destruct (trimmed_or_null (body_field b_source r)); [|done].
  destruct (normalizeStatus (body_field b_status r)); [|done].
  cbn [fst]. unfold broadcast.
  match goal with |- context [fanout throws ?e ?ls ?s] =>
    destruct (fan_rest throws e ls s) as (_ & _ & -> & ->) end.
  unfold storeInHistory. cbv zeta. by case_decide.
Qed.

Lemma step_journal ev st :
  secretWarningLogged (fst (step ev st))
  = secretWarningLogged st || unsecured ev
  /\ List.filter is_warning (console (fst (step ev st)))
     = List.filter is_warning (console st)
       ++ (if negb (secretWarningLogged st) && unsecured ev
           then [WarnNoSecret] else []).
Proof.
  destruct ev as [secret r now throws|user t1 t2|user|user limit db|k|k t];
    cbn [step unsecured]; rewrite ?orb_false_r, ?andb_false_r, ?app_nil_r.
  - pose proof (handle_post_journal secret r now throws st) as [Hc Hw].
    destruct (handle_post secret r now throws st) as [st' resp].
    cbn [fst] in *. rewrite Hc, Hw.
    destruct secret as [[|c s]|].
    + change (secret_rejected (Some []) r) with false. cbv iota.
      unfold warn_unless_secret. destruct (secretWarningLogged st) eqn:E.
      * by rewrite E, app_nil_r.
      * cbn [console secretWarningLogged set_secretWarningLogged log_console].
        by rewrite List.filter_app.
    + cbn [warn_unless_secret]. rewrite orb_false_r, andb_false_r, app_nil_r.
      by destruct (secret_rejected _ r).
    + change (secret_rejected None r) with false. cbv iota.
      unfold warn_unless_secret. destruct (secretWarningLogged st) eqn:E.
      * by rewrite E, app_nil_r.
      * cbn [console secretWarningLogged set_secretWarningLogged log_console].
        by rewrite List.filter_app.
  - unfold handle_stream. destruct user; [|done]. cbn [negb]. cbv zeta.
    destruct t1; [done|].
    match goal with |- context [lastCall ?s] => change (lastCall s) with (lastCall st) end.
    by destruct (lastCall st); [destruct t2|].
  - unfold handle_last. by destruct user.
  - unfold handle_log. destruct user; [|done]. cbn [negb].
    destruct (log_limit limit); [|done]. cbv zeta.
    destruct (load_people _ _) as [m [|]]; [|done]. cbn [fst].
    cbn [console secretWarningLogged log_console].
    by rewrite List.filter_app, app_nil_r.
  - cbn [fst]. unfold on_close. destruct (sessions st !! k) as [[rl [tm|]]|]; done.
  - cbn [fst]. unfold heartbeat_tick. case_decide; [|done].
    destruct (sessions st !! k) as [[rl [tm|]]|]; [| |done]; by destruct t.
Qed.

(** X16: the warning that no secret is configured is written to the
    console by the first ingestion that arrives while none is configured,
    and never again: after any sequence of events the console holds it
    once when there was such an ingestion and not at all otherwise, and the
    flag [secretWarningLogged] tells which. *)
Theorem no_secret_warning_once (evs : list event) :
  let st := run evs initial in
  secretWarningLogged st = existsb unsecured evs
  /\ List.filter is_warning (console st)
     = if existsb unsecured evs then [WarnNoSecret] else [].
Proof.
  cbv zeta. induction evs as [|ev evs [IHw IHc]] using rev_ind; [done|].
  rewrite run_snoc, existsb_app. cbn [existsb]. rewrite orb_false_r.
  destruct (step_journal ev (run evs initial)) as [-> ->].
  rewrite IHw, IHc. split; [done|].
  by destruct (existsb unsecured evs), (unsecured ev).
Qed.

(** ** The call-log page on the entries of the router *)

Lemma reachable_history_shown st :
  reachable st ->
  Forall (fun e => entry_wf e /\ Entry.phone e <> [] /\ free_text (Entry.note e))
    (callHistory st).
Proof.
  intros [evs ->].
  apply run_history_Forall; [|apply initial_ring_inv|constructor].
  intros ev s e Ha. split; [by eapply accepted_wf|].
  by destruct (accepted_free_text ev s e Ha) as (_ & _ & ? & _ & ?).
Qed.

Lemma own_property_elem {A} (o : list (jsstring * A)) (k : jsstring) (v : A) :
  AdminCallLog.own_property o k = Some v -> (k, v) ∈ o.
Proof.
  induction o as [|[k' v'] o IH]; [done|]. cbn [AdminCallLog.own_property].
  case_decide as E.
  - intros [= <-]. subst k'. left.
  - intros H. right. by apply IH.
Qed.

Lemma own_status_meta (s : jsstring) :
  s ∈ STATUS_LABELS
  <-> is_Some (AdminCallLog.own_property AdminCallLog.STATUS_META s).
Proof.
  split.
  - unfold STATUS_LABELS. intros H.
    repeat (apply elem_of_cons in H as [->|H]);
      [..|by apply elem_of_nil in H]; eexists; vm_compute; reflexivity.
  - intros [meta H%own_property_elem]. unfold AdminCallLog.STATUS_META in H.
    repeat (apply elem_of_cons in H as [[= -> _]|H]);
      [..|by apply elem_of_nil in H]; unfold STATUS_LABELS.
    + right. left.
    + do 2 right. left.
    + do 3 right. left.
    + left.
Qed.

(** X17: the page shows what the router stored.  For every entry of the
    ring of a reachable state, sent by the history read and parsed back,
    the row of the page has the entry's id, phone and status and none of
    the fall-backs for them; the status has a badge of its own in
    [STATUS_META], never the one for an unknown status; the note is the
    stored one, or the dash when there is none; a stored caller name is the
    name shown.  The statuses with a badge of their own are the four
    labels of the router. *)
Theorem log_rows_show_stored_values
    (dayjs_isValid : value -> bool) (dayjs_format : value -> jsstring -> jsstring)
    (inherited : jsstring -> bool)
    (st : state) (e : entry) (people : gmap jsstring person)
    (pe : AdminCallLog.payload_entry) :
  reachable st ->
  e ∈ callHistory st ->
  AdminCallLog.transports (enrich people e) pe ->
  let row := AdminCallLog.row_of dayjs_isValid dayjs_format pe in
  AdminCallLog.r_id row = VStr (Entry.id e)
  /\ AdminCallLog.r_phone row = VStr (Entry.phone e)
  /\ AdminCallLog.r_status row = VStr (Entry.status e)
  /\ (exists meta,
        AdminCallLog.StatusBadge inherited (Entry.status e) = Some meta
        /\ (Entry.status e, meta) ∈ AdminCallLog.STATUS_META
        /\ meta <> AdminCallLog.UNKNOWN_META)
  /\ AdminCallLog.r_note row
     = VStr (default AdminCallLog.dash (Entry.note e))
  /\ (forall name, Entry.callerName e = Some name ->
        AdminCallLog.r_name row = VStr name)
  /\ (forall s, s ∈ STATUS_LABELS <->
        is_Some (AdminCallLog.own_property AdminCallLog.STATUS_META s)).
Proof.
  intros Hreach He (Hid & _ & Hphone & _ & Hstatus & Hnote & Hname & _) row.
  pose proof (reachable_history_shown st Hreach) as Hall.
  rewrite Forall_forall in Hall.
  destruct (Hall e He) as ((_ & _ & _ & _ & Hlabel & Hcn) & Hp & Hn).
  cbn [enrich le_id le_phone le_status le_note caller_name] in *.
  subst row. unfold AdminCallLog.row_of.
  cbn [AdminCallLog.r_id AdminCallLog.r_phone AdminCallLog.r_status
       AdminCallLog.r_note AdminCallLog.r_name].
  rewrite Hid, Hphone, Hstatus, Hnote.
  split; [done|]. split; [|split; [|split; [|split; [|split]]]].
  - unfold js_or. cbn [truthy]. by destruct (Entry.phone e).
  - unfold js_or. cbn [truthy].
    destruct (Entry.status e) eqn:E; [|done].
    exfalso. unfold STATUS_LABELS in Hlabel.
    repeat (apply elem_of_cons in Hlabel as [Hlabel|Hlabel]; [discriminate|]).
    by apply elem_of_nil in Hlabel.
  - apply own_status_meta in Hlabel as [meta Hown].
    pose proof (own_property_elem _ _ _ Hown) as Hin.
    exists meta. unfold AdminCallLog.StatusBadge. rewrite Hown.
    split; [done|]. split; [done|]. intros ->.
    unfold AdminCallLog.STATUS_META in Hin.
    repeat (apply elem_of_cons in Hin as [Hin|Hin]; [discriminate|]).
    by apply elem_of_nil in Hin.
  - destruct (Entry.note e) as [[|c n]|]; cbn; try done. by destruct Hn.
  - intros name Hcall. rewrite Hcall in Hname, Hcn.
    destruct name as [|c name]; [done|].
    by rewrite (Hname (c :: name) eq_refl).
  - apply own_status_meta.
Qed.

Lemma log_rows_show_stored_values_witness :
  AdminCallLog.r_phone
    (AdminCallLog.row_of (fun _ => true) (fun _ fmt => fmt)
       (AdminCallLog.payload_of (enrich ∅ (sample_entry_plus 2))))
  = VStr (lit "+407").
Proof.
  assert (H : reachable (run sample_run initial)) by (by eexists).
  refine (proj1 (proj2 (log_rows_show_stored_values (fun _ => true)
    (fun _ fmt => fmt) (fun _ => false) (run sample_run initial)
    (sample_entry_plus 2) ∅
    (AdminCallLog.payload_of (enrich ∅ (sample_entry_plus 2))) H _ _))).
  - vm_compute. left.
  - unfold AdminCallLog.transports. repeat split; done.
Defined.

(** X18: the limits the page can ask for are honoured as they are: each
    option of the select, and the limit the page starts with, is kept by
    [onChange], lies within the bounds of the router, and the history read
    of a reachable state answers it with that many entries, or with the
    whole ring when the ring holds fewer; the last option is the capacity
    of the ring, so it always shows the whole ring. *)
Theorem page_limits_honoured (opt : Z) (db : list jsstring -> db_result)
    (st : state) :
  reachable st ->
  opt ∈ AdminCallLog.LIMIT_OPTIONS \/ opt = AdminCallLog.initial_limit ->
  AdminCallLog.select_limit opt = opt
  /\ log_limit (AdminCallLog.limit_query opt) = Some opt
  /\ exists entries,
       snd (handle_log true (AdminCallLog.limit_query opt) db st)
       = Json 200 (BEntries entries)
       /\ length entries = Nat.min (Z.to_nat opt) (length (callHistory st))
       /\ (opt = Z.of_nat MAX_HISTORY ->
           map le_id entries = map Entry.id (callHistory st)).
Proof.
  intros [evs ->] Hopt.
  assert (Hlim : AdminCallLog.select_limit opt = opt
                 /\ log_limit (AdminCallLog.limit_query opt) = Some opt).
  { destruct Hopt as [H| ->]; [|by vm_compute].
    unfold AdminCallLog.LIMIT_OPTIONS in H.
    repeat (apply elem_of_cons in H as [->|H]); try (by vm_compute).
    by apply elem_of_nil in H. }
  destruct Hlim as [Hsel Hlim]. split; [done|]. split; [done|].
  eexists. split; [by apply handle_log_authorized|].
  split; [by rewrite length_map, length_take|].
  intros ->.
  destruct (run_ring_inv evs initial initial_ring_inv) as [Hlen _].
  rewrite take_ge by (rewrite Nat2Z.id; exact Hlen).
  change (map le_id (map ?f ?l)) with (le_id <$> (f <$> l)).
  rewrite <- list_fmap_compose. by apply list_fmap_ext.
Qed.

Lemma page_limits_honoured_witness :
  log_limit (AdminCallLog.limit_query 300) = Some 300.
Proof.
  assert (H : reachable initial) by (by exists []).
  refine (proj1 (proj2 (page_limits_honoured 300 (directory []) initial H _))).
  left. unfold AdminCallLog.LIMIT_OPTIONS. do 4 right. left.
Defined.
